(** * Mood playlist generator: the mood aggregator and the artist recommender

    A shallow embedding of the two pieces of logic of the repository:

    - [face_mood_analyzer.get_mood_from_webcam], the reduction of the series
      of dominant emotions to a final mood (module [FaceMood]);
    - [groq_api.GroqMusicArtistService], the parser of the free-text answer
      [_parse_artists] and the retry loop [get_artists] (module [GroqApi]).

    Python strings are sequences of Unicode code points, modelled as lists
    of [N] (module [PyStr]). *)

From Stdlib Require Import String Ascii Bool ZArith NArith QArith Qminmax List Lia.
Import ListNotations.

Set Implicit Arguments.

(* ================================================================== *)
(** * Python strings *)
(* ================================================================== *)

Module PyStr.

Local Open Scope N_scope.

Definition char := N.
Definition str := list char.

(** An ASCII literal as a Python string. *)
Definition lit (s : string) : str := map N_of_ascii (list_ascii_of_string s).

Definition LF : char := 10.
Definition CR : char := 13.

Definition in_range (lo hi c : char) : bool := (lo <=? c) && (c <=? hi).

Definition str_eqb (a b : str) : bool :=
  if list_eq_dec N.eq_dec a b then true else false.

(** [str.isspace] on one code point, which is also what [\s] matches in a
    [str] pattern: the white space of the Unicode character database. *)
Definition isspace (c : char) : bool :=
  in_range 9 13 c || in_range 28 32 c || (c =? 133) || (c =? 160)
  || (c =? 5760) || in_range 8192 8202 c || (c =? 8232) || (c =? 8233)
  || (c =? 8239) || (c =? 8287) || (c =? 12288).

Fixpoint drop_while (p : char -> bool) (s : str) : str :=
  match s with
  | c :: s' => if p c then drop_while p s' else s
  | [] => []
  end.

(** Length of the longest prefix whose characters satisfy [p]. *)
Fixpoint span_len (p : char -> bool) (s : str) : nat :=
  match s with
  | c :: s' => if p c then S (span_len p s') else O
  | [] => O
  end.

Definition lstrip (s : str) : str := drop_while isspace s.
Definition rstrip (s : str) : str := rev (drop_while isspace (rev s)).
(** [s.strip()] *)
Definition strip (s : str) : str := rstrip (lstrip s).

Fixpoint startswith (p s : str) : bool :=
  match p, s with
  | [], _ => true
  | a :: p', b :: s' => (a =? b) && startswith p' s'
  | _ :: _, [] => false
  end.

(** [p in s] *)
Fixpoint contains (p s : str) : bool :=
  startswith p s ||
  match s with
  | [] => false
  | _ :: s' => contains p s'
  end.

Definition cons_head (c : char) (parts : list str) : list str :=
  match parts with
  | h :: t => (c :: h) :: t
  | [] => [[c]]
  end.

(** [s.split(sep)] for a non-empty [sep]: the occurrences of [sep] are
    found from left to right and do not overlap; [skip] counts the
    characters of an occurrence still to be passed over. *)
Fixpoint split_from (sep : str) (skip : nat) (s : str) : list str :=
  match s with
  | [] => [[]]
  | c :: s' =>
      match skip with
      | S k => split_from sep k s'
      | O =>
          if startswith sep s
          then [] :: split_from sep (length sep - 1)%nat s'
          else cons_head c (split_from sep 0 s')
      end
  end.

Definition split (sep : str) (s : str) : list str := split_from sep 0 s.

(** [s.replace(c, e)] for a single character [c] and the empty string [e]. *)
Definition remove_char (c : char) (s : str) : str :=
  filter (fun x => negb (x =? c)) s.

(** [l[:n]] for a Python integer [n]: a negative [n] counts from the end. *)
Definition slice_to (A : Type) (n : Z) (l : list A) : list A :=
  if (0 <=? n)%Z then firstn (Z.to_nat n) l
  else firstn (length l - Z.to_nat (- n))%nat l.

(** ASCII lower-casing, which is what both [str.lower] and [str.casefold]
    do on a string of ASCII characters. *)
Definition ascii_lower_char (c : char) : char :=
  if in_range 65 90 c then c + 32 else c.
Definition ascii_lower (s : str) : str := map ascii_lower_char s.
Definition is_ascii (s : str) : bool := forallb (fun c => c <? 128) s.

End PyStr.

(* ================================================================== *)
(** * groq_api.py: the parser of the generated text *)
(* ================================================================== *)

Module GroqApi.

Import PyStr.
Local Open Scope N_scope.

(** ** Character classes of the regular expressions *)

Definition backtick : char := 96.
Definition fence : str := [backtick; backtick; backtick].

(** [[a-zA-Z0-9]] *)
Definition is_alnum (c : char) : bool :=
  in_range 97 122 c || in_range 65 90 c || in_range 48 57 c.

(** [[0-9]] *)
Definition is_digit (c : char) : bool := in_range 48 57 c.

(** The class of list markers: dash, asterisk and the bullet U+2022 (which
    the source writes twice, escaped and literally). *)
Definition is_list_marker (c : char) : bool :=
  (c =? 45) || (c =? 42) || (c =? 8226) || (c =? 8226).

(** [[.)]] *)
Definition is_dot_or_paren (c : char) : bool := (c =? 46) || (c =? 41).

(** The class of quotes: U+0022, U+0027, U+201C, U+201D, U+2018, U+2019. *)
Definition is_quote (c : char) : bool :=
  (c =? 34) || (c =? 39) || (c =? 8220) || (c =? 8221)
  || (c =? 8216) || (c =? 8217).

(** The class of letters of line 107: A-Z, a-z, U+00C0-U+024F,
    U+0400-U+04FF, U+3040-U+30FF, U+4E00-U+9FFF, U+AC00-U+D7AF. *)
Definition is_letter (c : char) : bool :=
  in_range 65 90 c || in_range 97 122 c || in_range 192 591 c
  || in_range 1024 1279 c || in_range 12352 12543 c
  || in_range 19968 40959 c || in_range 44032 55215 c.

(** ** Line 90: the fences are removed

    [re.sub] with the pattern [^```[a-zA-Z0-9]*\s*|\s*```$], the empty
    replacement and [re.MULTILINE]. *)

(** [^```[a-zA-Z0-9]*\s*] tried at a position where [^] holds: the length
    of the match. Both stars are greedy and nothing follows them. *)
Definition open_fence_len (s : str) : option nat :=
  if startswith fence s then
    let r := skipn 3 s in
    let a := span_len is_alnum r in
    let w := span_len isspace (skipn a r) in
    Some (3 + a + w)%nat
  else None.

(** [$] under [re.MULTILINE]: the end of the text or just before a newline. *)
Definition at_eol (s : str) : bool :=
  match s with
  | [] => true
  | c :: _ => c =? LF
  end.

(** [\s*```$] tried at a position: the greedy [\s*] cannot give a
    character back, since a space is not a backtick. *)
Definition close_fence_len (s : str) : option nat :=
  let w := span_len isspace s in
  let r := skipn w s in
  if startswith fence r && at_eol (skipn 3 r) then Some (w + 3)%nat else None.

(** The alternation at one position; [bol] tells whether [^] holds there. *)
Definition fence_match (bol : bool) (s : str) : option nat :=
  if bol then
    match open_fence_len s with
    | Some n => Some n
    | None => close_fence_len s
    end
  else close_fence_len s.

(** The scan of [re.sub]: every match, from left to right, is replaced by
    the empty string; [skip] counts the characters of the current match
    that remain to be dropped. *)
Fixpoint strip_fences_from (bol : bool) (skip : nat) (s : str) : str :=
  match s with
  | [] => []
  | c :: s' =>
      let bol' := c =? LF in
      match skip with
      | S k => strip_fences_from bol' k s'
      | O =>
          match fence_match bol s with
          | Some (S k) => strip_fences_from bol' k s'
          | _ => c :: strip_fences_from bol' 0 s'
          end
      end
  end.

Definition strip_fences (text : str) : str := strip_fences_from true 0 text.

(** ** Lines 91-98: the candidate lines *)

Definition comma : str := lit ",".
Definition bullet_sep : str := [32; 8226; 32].
Definition pipe_sep : str := lit " | ".

Definition nonblank (l : str) : bool :=
  match strip l with
  | [] => false
  | _ :: _ => true
  end.

(** Line 91: carriage returns are removed, the text is split at the
    newlines, and the lines that are blank once stripped are dropped. *)
Definition nonblank_lines (text : str) : list str :=
  filter nonblank (split [LF] (remove_char CR text)).

(** Lines 93-97: [sep] is assigned up to three times, the last wins. *)
Definition choose_sep (line : str) : str :=
  let sep := comma in
  let sep := if contains bullet_sep line then bullet_sep else sep in
  let sep := if contains pipe_sep line then pipe_sep else sep in
  sep.

(** Line 98: [[p for p in [x.strip() for x in lines[0].split(sep)] if p]] *)
Definition split_pieces (sep line : str) : list str :=
  filter (fun p => negb (str_eqb p [])) (map strip (split sep line)).

(** Lines 92-98. *)
Definition resplit (lines : list str) : list str :=
  match lines with
  | [line] =>
      if contains comma line || contains bullet_sep line || contains pipe_sep line
      then split_pieces (choose_sep line) line
      else lines
  | _ => lines
  end.

(** Lines 89-98: from the raw text to the list [lines] the loop runs over. *)
Definition candidate_lines (raw : str) : list str :=
  resplit (nonblank_lines (strip_fences (strip raw))).

(** ** Lines 103-104: cleaning of one line *)

(** Line 103, [re.sub] with the pattern [^\s*(?:M|[0-9]{1,2}[.)])\s*], where
    M is the class of list markers: the pattern is anchored at the start of
    the string, so at most one match is replaced; when it does not match
    the line is unchanged. Of the greedy [\s*] and [{1,2}] nothing can be
    given back: a space is neither a marker nor a digit, and a digit is
    neither a dot nor a parenthesis. *)
Definition strip_marker (line : str) : str :=
  match lstrip line with
  | c :: r1 =>
      if is_list_marker c then lstrip r1
      else if is_digit c then
        match r1 with
        | d :: r2 =>
            if is_digit d then
              match r2 with
              | p :: r3 => if is_dot_or_paren p then lstrip r3 else line
              | [] => line
              end
            else if is_dot_or_paren d then lstrip r2
            else line
        | [] => line
        end
      else line
  | [] => line
  end.

(** Line 104, [re.sub] with the pattern [^Q+|Q+$], where Q is the class of
    quotes: the leading run of quotes goes, and so does the trailing run;
    [$] without [re.MULTILINE] also matches just before a newline that ends
    the string. *)
Definition strip_quotes (item : str) : str :=
  let s1 := drop_while is_quote item in
  match rev s1 with
  | [] => []
  | c :: r =>
      if c =? LF then rev (drop_while is_quote r) ++ [LF]
      else rev (drop_while is_quote (rev s1))
  end.

(** Lines 103-104. *)
Definition clean_item (line : str) : str :=
  strip (strip_quotes (strip (strip_marker line))).

Definition preamble_markers : list str :=
  [lit "artists:"; lit "here are"; lit "list:"; lit "output"; lit "names:"].

(** Line 107: [re.search] of one letter of the class. *)
Definition has_letter (item : str) : bool := existsb is_letter item.

Section Parser.

(** [str.lower] and [str.casefold] are those of the Python runtime: their
    Unicode tables are not part of the repository. *)
Variable lower : str -> str.
Variable casefold : str -> str.

(** Line 105: [any(prefix in item.lower() for prefix in [...])] *)
Definition is_preamble (item : str) : bool :=
  existsb (fun prefix => contains prefix (lower item)) preamble_markers.

(** Lines 100-115: the loop. [seen] is the set of the keys met so far,
    kept as a list and only ever tested for membership; the result is
    [cleaned] when the loop ends, by exhaustion or by [break]. *)
Fixpoint collect (target_count : Z) (lines : list str)
         (seen : list str) (cleaned : list str) : list str :=
  match lines with
  | [] => cleaned
  | line :: rest =>
      let item := clean_item line in
      if is_preamble item then collect target_count rest seen cleaned
      else if negb (has_letter item) then collect target_count rest seen cleaned
      else
        let key := casefold item in
        if existsb (str_eqb key) seen then collect target_count rest seen cleaned
        else
          let seen' := key :: seen in
          let cleaned' := cleaned ++ [item] in
          if (Z.of_nat (length cleaned') >=? target_count)%Z then cleaned'
          else collect target_count rest seen' cleaned'
  end.

(** [_parse_artists(raw, target_count)]; [raw] is [None] when the message
    of the completion has no content. *)
Definition _parse_artists (raw : option str) (target_count : Z) : list str :=
  match raw with
  | None => []
  | Some [] => []
  | Some raw =>
      let cleaned := collect target_count (candidate_lines raw) [] [] in
      if (Z.of_nat (length cleaned) >? target_count)%Z
      then slice_to target_count cleaned
      else cleaned
  end.

End Parser.

(* ================================================================== *)
(** * groq_api.py: the retry loop of [get_artists] *)
(* ================================================================== *)

(** The fields of the frozen dataclass; the floats are rationals here. *)
Record GroqArtistConfig := {
  api_key : str;
  model : str;
  temperature : Q;
  max_tokens : Z;
  retries : Z;
  backoff_initial : Q;
  backoff_max : Q;
  enforce_count : Z
}.

(** The defaults of the dataclass. *)
Definition default_config (key : str) : GroqArtistConfig := {|
  api_key := key;
  model := lit "llama-3.1-8b-instant";
  temperature := 1 # 10;
  max_tokens := 256;
  retries := 3;
  backoff_initial := 6 # 10;
  backoff_max := 6;
  enforce_count := 10
|}.

(** What one call of [client.chat.completions.create] does: it raises, or
    it returns a completion, of which the code reads the list of choices
    and the content of the message of each, a string or [None]. *)
Inductive Response :=
| Raised
| Completion (choices : list (option str)).

(** The effects of a call of [get_artists], in order. *)
Inductive Event :=
| Request (attempt : Z)
| Sleep (delay : Q).

(** A call returns a list, or lets an exception escape. *)
Inductive Outcome :=
| Returned (artists : list str)
| Propagated.

Definition emit (e : Event) (r : Outcome * list Event) : Outcome * list Event :=
  (fst r, e :: snd r).

(** Line 70: the content of the first choice, the empty string when there
    is no choice. *)
Definition raw_of (choices : list (option str)) : option str :=
  match choices with
  | c :: _ => c
  | [] => Some []
  end.

(** Line 38: [count or self.config.enforce_count] *)
Definition target_count_of (cfg : GroqArtistConfig) (count : option Z) : Z :=
  match count with
  | None => enforce_count cfg
  | Some c => if (c =? 0)%Z then enforce_count cfg else c
  end.

(** Line 39: [max(1, self.config.retries)] *)
Definition attempts_of (cfg : GroqArtistConfig) : Z := Z.max 1 (retries cfg).

(** The greatest [n] for which the integer [2 ** n] converts to a float. *)
Definition float_max_exp : Z := 1023.

(** Lines 75 and 80:
    [min(backoff_initial * (2 ** (attempt - 1)), backoff_max)]. For the
    product the integer [2 ** (attempt - 1)] is converted to a float, which
    raises [OverflowError] from [2 ** 1024] on: [None] stands for that error.
    Otherwise the product of a finite float by a power of two is exact, or
    an infinity, which [min] replaces by [backoff_max] when it is positive:
    the value is the one computed on rationals. *)
Definition backoff_delay (cfg : GroqArtistConfig) (attempt : Z) : option Q :=
  if (attempt - 1 <=? float_max_exp)%Z
  then Some (Qmin (backoff_initial cfg * inject_Z (2 ^ (attempt - 1)))
                  (backoff_max cfg))
  else None.

Section Service.

Variable lower : str -> str.
Variable casefold : str -> str.

(** [time.sleep] of the Python runtime: [true] when it returns, [false]
    when it raises, which it does on a negative duration ([ValueError]) and
    on one beyond the range of the clock of the platform
    ([OverflowError]). *)
Variable sleep_accepts : Q -> bool.

Variable cfg : GroqArtistConfig.
(** The answer of the generation backend to the request of each attempt.
    The texts of the prompts decide nothing in [get_artists] and are left
    out: [language] reaches the prompt only. *)
Variable backend : Z -> Response.

(** Lines 77-83, the handler, entered after the request of [attempt];
    [continue] is the rest of the loop. *)
Definition on_exception (attempt : Z) (continue : Outcome * list Event)
  : Outcome * list Event :=
  if (attempt <? attempts_of cfg)%Z then
    match backoff_delay cfg attempt with
    | Some delay =>
        if sleep_accepts delay then emit (Sleep delay) continue
        else (Propagated, [])
    | None => (Propagated, [])
    end
  else (Returned [], []).

(** Lines 47-84: the loop over [range(1, attempts + 1)], with [todo]
    iterations left, the next one numbered [attempt]. *)
Fixpoint attempt_loop (target_count : Z) (todo : nat) (attempt : Z)
  : Outcome * list Event :=
  match todo with
  | O => (Returned [], [])
  | S todo' =>
      let continue := attempt_loop target_count todo' (attempt + 1)%Z in
      emit (Request attempt)
        match backend attempt with
        | Raised => on_exception attempt continue
        | Completion choices =>
            let artists := _parse_artists lower casefold (raw_of choices) target_count in
            if (Z.of_nat (length artists) =? target_count)%Z
            then (Returned artists, [])
            else if (attempt <? attempts_of cfg)%Z then
              match backoff_delay cfg attempt with
              | Some delay =>
                  if sleep_accepts delay then emit (Sleep delay) continue
                  else on_exception attempt continue
              | None => on_exception attempt continue
              end
            else continue
        end
  end.

(** [get_artists(mood, language, count)] *)
Definition get_artists (mood : str) (language : option str) (count : option Z)
  : Outcome * list Event :=
  match strip mood with
  | [] => (Returned [], [])
  | _ :: _ =>
      let target_count := target_count_of cfg count in
      let attempts := attempts_of cfg in
      attempt_loop target_count (Z.to_nat attempts) 1%Z
  end.

End Service.

End GroqApi.

(* ================================================================== *)
(** * face_mood_analyzer.py: from the series of emotions to the mood *)
(* ================================================================== *)

Module FaceMood.

Import PyStr.

Section Counting.

Variable K : Type.
Variable eqb : K -> K -> bool.

(** A [collections.Counter]: a dict, which keeps its keys in the order of
    their first insertion. *)
Definition Counter := list (K * nat).

(** [mapping[elem] = mapping.get(elem, 0) + 1] *)
Fixpoint count_element (elem : K) (c : Counter) : Counter :=
  match c with
  | [] => [(elem, 1%nat)]
  | (k, n) :: c' =>
      if eqb elem k then (k, S n) :: c' else (k, n) :: count_element elem c'
  end.

(** [Counter(iterable)] *)
Definition Counter_of (iterable : list K) : Counter :=
  fold_left (fun c elem => count_element elem c) iterable [].

(** [max(items, key=itemgetter(1))] with [best] the maximum so far: a
    later item replaces it only when its count is strictly greater. *)
Fixpoint max_by_count (best : K * nat) (items : Counter) : K * nat :=
  match items with
  | [] => best
  | item :: items' =>
      if (snd best <? snd item)%nat then max_by_count item items'
      else max_by_count best items'
  end.

(** [c.most_common(1)], which is [heapq.nlargest(1, c.items(), key=...)]:
    for one element that is the first maximum of [max], in a list. *)
Definition most_common_1 (c : Counter) : list (K * nat) :=
  match c with
  | [] => []
  | item :: items => [max_by_count item items]
  end.

(** [pairs[0][0]]; [None] stands for the [IndexError] of an empty list. *)
Definition first_key (pairs : list (K * nat)) : option K :=
  match pairs with
  | p :: _ => Some (fst p)
  | [] => None
  end.

(** The words of the specification: how often a label occurs, and where
    it is first encountered. *)
Definition occurrences (x : K) (l : list K) : nat := length (filter (eqb x) l).

Fixpoint first_index (x : K) (l : list K) : nat :=
  match l with
  | [] => O
  | y :: l' => if eqb x y then O else S (first_index x l')
  end.

(** [m] is the most frequent label of [l], the first encountered one among
    the most frequent. *)
Definition most_frequent_first (l : list K) (m : K) : Prop :=
  In m l /\
  forall x, In x l ->
    (occurrences x l <= occurrences m l)%nat /\
    (occurrences x l = occurrences m l -> (first_index m l <= first_index x l)%nat).

Definition keys (c : Counter) : list K := map fst c.

(** What the counter of a list holds: each label of the list once, with
    the number of its occurrences. *)
Definition counts (l : list K) (c : Counter) : Prop :=
  NoDup (keys c) /\
  (forall k, In k (keys c) <-> In k l) /\
  Forall (fun p => snd p = occurrences (fst p) l) c.

End Counting.

Definition neutral : str := lit "neutral".

(** Lines 120-134 of [get_mood_from_webcam]: the reduction of
    [last_known_emotions] to the mood that is returned. *)
Definition final_mood (last_known_emotions : list str) : option str :=
  match last_known_emotions with
  | [] => Some neutral
  | _ :: _ =>
      let emotional_moods :=
        filter (fun mood => negb (str_eqb mood neutral)) last_known_emotions in
      match emotional_moods with
      | _ :: _ => first_key (most_common_1 (Counter_of str_eqb emotional_moods))
      | [] => first_key (most_common_1 (Counter_of str_eqb last_known_emotions))
      end
  end.

End FaceMood.

(* ================================================================== *)
(** * Words of the specification and sample inputs *)
(* ================================================================== *)

(** [s] keeps some of the elements of [l], in the order of [l]. *)
Inductive subsequence (A : Type) : list A -> list A -> Prop :=
| sub_nil : forall l, subsequence [] l
| sub_keep : forall x s l, subsequence s l -> subsequence (x :: s) (x :: l)
| sub_skip : forall x s l, subsequence s l -> subsequence s (x :: l).

Module Words.

Import PyStr GroqApi.

(** The number of requests sent to the backend in a run. *)
Fixpoint requests (trace : list Event) : nat :=
  match trace with
  | [] => O
  | Request _ :: trace' => S (requests trace')
  | Sleep _ :: trace' => requests trace'
  end.

(** The run of [n] failed attempts numbered from [attempt]: after each
    attempt but the last a sleep of
    [min(backoff_initial * 2^(attempt-1), backoff_max)], and nothing after
    the last. *)
Fixpoint backoff_schedule (b0 bmax : Q) (n : nat) (attempt : Z) : list Event :=
  match n with
  | O => []
  | S n' =>
      match n' with
      | O => [Request attempt]
      | S _ =>
          Request attempt
          :: Sleep (Qmin (b0 * inject_Z (2 ^ (attempt - 1))) bmax)
          :: backoff_schedule b0 bmax n' (attempt + 1)
      end
  end.

(** The configuration with another number of retries. *)
Definition with_retries (r : Z) (cfg : GroqArtistConfig) : GroqArtistConfig := {|
  api_key := api_key cfg;
  model := model cfg;
  temperature := temperature cfg;
  max_tokens := max_tokens cfg;
  retries := r;
  backoff_initial := backoff_initial cfg;
  backoff_max := backoff_max cfg;
  enforce_count := enforce_count cfg
|}.

(** Splitting a text at a separator, in words: the text is cut at the
    occurrences of [sep] met from left to right. A piece that a separator
    follows ends where the first occurrence of [sep] from its start
    begins, so that no occurrence begins inside the piece; the last piece
    holds no occurrence. *)
Inductive split_at (sep : str) : str -> list str -> Prop :=
| split_at_last (s : str) :
    contains sep s = false -> split_at sep s [s]
| split_at_piece (piece rest : str) (pieces : list str) :
    contains sep (piece ++ removelast sep) = false ->
    split_at sep rest pieces ->
    split_at sep (piece ++ sep ++ rest) (piece :: pieces).

Section Attempt.

Variable lower : str -> str.
Variable casefold : str -> str.

(** The cleaned list an attempt yields, when its request does not raise. *)
Definition cleaned_list (target_count : Z) (r : Response) : option (list str) :=
  match r with
  | Raised => None
  | Completion choices =>
      Some (_parse_artists lower casefold (raw_of choices) target_count)
  end.

(** The attempt yields a list of exactly the target length. *)
Definition exact_length (target_count : Z) (r : Response) : bool :=
  match cleaned_list target_count r with
  | Some artists => (Z.of_nat (length artists) =? target_count)%Z
  | None => false
  end.

End Attempt.

End Words.

Module Samples.

Import PyStr GroqApi.

Definition happy : str := lit "happy".
Definition sad : str := lit "sad".
Definition Adele : str := lit "Adele".
Definition Drake : str := lit "Drake".

(** Three numbered lines, the third a repeat of the first. *)
Definition numbered_text : str :=
  lit "1. Adele" ++ [LF] ++ lit "2. Drake" ++ [LF] ++ lit "3. Adele".

(** A preamble line before two names. *)
Definition preamble_text : str :=
  lit "Here are the artists:" ++ [LF] ++ lit "Adele" ++ [LF] ++ lit "Drake".

(** One line with commas and a pipe separator. *)
Definition mixed_line : str := lit "Adele, Drake | Sia, Muse".

(** A backend that raises at every request, and backends that always
    answer one text. *)
Definition always_raises : Z -> Response := fun _ => Raised.
Definition always_answers (text : str) : Z -> Response :=
  fun _ => Completion [Some text].

Definition two_names : str := lit "Adele" ++ [LF] ++ lit "Drake".

Definition blank_mood : str := lit "   ".
Definition key : str := lit "key".

Definition one_try : GroqArtistConfig := {|
  api_key := lit "key";
  model := lit "llama-3.1-8b-instant";
  temperature := 1 # 10;
  max_tokens := 256;
  retries := 1;
  backoff_initial := 6 # 10;
  backoff_max := 6;
  enforce_count := 10
|}.

Definition no_try : GroqArtistConfig := {|
  api_key := lit "key";
  model := lit "llama-3.1-8b-instant";
  temperature := 1 # 10;
  max_tokens := 256;
  retries := 0;
  backoff_initial := 6 # 10;
  backoff_max := 6;
  enforce_count := 10
|}.

(** A configuration whose delays [time.sleep] refuses. *)
Definition negative_backoff : GroqArtistConfig := {|
  api_key := lit "key";
  model := lit "llama-3.1-8b-instant";
  temperature := 1 # 10;
  max_tokens := 256;
  retries := 2;
  backoff_initial := - (1);
  backoff_max := 6;
  enforce_count := 10
|}.

End Samples.

(* ================================================================== *)
(** * groq_api.py: configuration, entry point and output *)
(* ================================================================== *)

Module GroqEntry.

Import PyStr GroqApi.

(** [sep.join(parts)], used for the plain output of line 173. *)
Fixpoint join (sep : str) (parts : list str) : str :=
  match parts with
  | [] => []
  | p :: rest =>
      match rest with
      | [] => p
      | _ :: _ => p ++ sep ++ join sep rest
      end
  end.

(** Line 173: what the command line writes without [--json]: [print]
    writes its argument, the names joined by newlines, and then a newline. *)
Definition plain_output (artists : list str) : str := join [LF] artists ++ [LF].

Section Environment.

(** The environment of the process, and the conversions [int] and [float]
    of the Python runtime; [None] stands for their [ValueError]. *)
Variable getenv : str -> option str.
Variable to_int : str -> option Z.
Variable to_float : str -> option Q.

(** [os.getenv(name, default)] *)
Definition os_getenv (name default : str) : str :=
  match getenv name with
  | Some value => value
  | None => default
  end.

(** Lines 121-145; the fields that are not passed take the defaults of
    the dataclass. *)
Definition _load_config : option GroqArtistConfig :=
  match strip (os_getenv (lit "GROQ_API_KEY") []) with
  | [] => None
  | c :: k =>
      let model := strip (os_getenv (lit "GROQ_MODEL") (lit "llama-3.1-8b-instant")) in
      let temperature :=
        match to_float (os_getenv (lit "GROQ_TEMPERATURE") (lit "0.1")) with
        | Some t => t
        | None => 1 # 10
        end in
      let max_tokens :=
        match to_int (os_getenv (lit "GROQ_MAX_TOKENS") (lit "256")) with
        | Some n => n
        | None => 256%Z
        end in
      let retries :=
        match to_int (os_getenv (lit "GROQ_RETRIES") (lit "3")) with
        | Some n => n
        | None => 3%Z
        end in
      Some {| api_key := c :: k;
              model := model;
              temperature := temperature;
              max_tokens := max_tokens;
              retries := retries;
              backoff_initial := 6 # 10;
              backoff_max := 6;
              enforce_count := 10 |}
  end.

Variable lower : str -> str.
Variable casefold : str -> str.
Variable sleep_accepts : Q -> bool.
Variable backend : Z -> Response.

(** Lines 147-152: [get_artists_from_groq(mood, language)] *)
Definition get_artists_from_groq (mood : str) (language : option str)
  : Outcome * list Event :=
  match _load_config with
  | None => (Returned [], [])
  | Some cfg =>
      get_artists lower casefold sleep_accepts cfg backend mood language
                  (Some 10%Z)
  end.

End Environment.

End GroqEntry.

(* ================================================================== *)
(** * app.py: the route that generates the playlist *)
(* ================================================================== *)

Module App.

Import PyStr GroqApi GroqEntry.

(** What a call of a collaborator does: it returns, or it raises. *)
Inductive Try (A : Type) :=
| Ok (a : A)
| Raises.
Arguments Raises {A}.

(** The JSON object of the response. *)
Inductive Reply :=
| Success (playlist_url mood : str) (songs : list str)
| Failure (error : str).

(** The truth value of a string or [None]. *)
Definition truthy (s : option str) : option str :=
  match s with
  | Some (c :: r) => Some (c :: r)
  | _ => None
  end.

Definition server_error : Reply :=
  Failure (lit "A server error occurred. Check the terminal for details.").

Section Route.

Variable lower : str -> str.
Variable casefold : str -> str.
(** [str.capitalize] of the Python runtime. *)
Variable capitalize : str -> str.
Variable getenv : str -> option str.
Variable to_int : str -> option Z.
Variable to_float : str -> option Q.
Variable sleep_accepts : Q -> bool.
Variable backend : Z -> Response.

(** The collaborators: the capture of the mood, and the two playlist
    builders of [spotify_api], which return a URL or [None] and the songs. *)
Variable get_mood_from_webcam : Try (option str).
Variable create_playlist_for_one_artist : str -> str -> Try (option str * list str).
Variable create_playlist_from_artists :
  list str -> str -> str -> Try (option str * list str).

(** Lines 43-65, the branch without a requested artist. *)
Definition mood_playlist (mood : str) (language : option str) : Reply :=
  match get_artists_from_groq getenv to_int to_float lower casefold
                              sleep_accepts backend mood language with
  | (Propagated, _) => server_error
  | (Returned [], _) => Failure (lit "No artists were received from the AI.")
  | (Returned recommended_artists, _) =>
      let playlist_name := capitalize mood ++ lit " Mood Playlist" in
      match create_playlist_from_artists recommended_artists mood playlist_name with
      | Raises => server_error
      | Ok (playlist_url, final_songs) =>
          match truthy playlist_url with
          | Some url => Success url (capitalize mood) final_songs
          | None => Failure (lit "Could not create the Spotify playlist.")
          end
      end
  end.

(** Lines 28-41, the branch of a requested artist. *)
Definition artist_playlist (artist : str) : Reply :=
  let playlist_name := artist ++ lit "'s Top Tracks" in
  match create_playlist_for_one_artist artist playlist_name with
  | Raises => server_error
  | Ok (playlist_url, final_songs) =>
      match truthy playlist_url with
      | Some url => Success url (artist ++ lit "'s Top Tracks") final_songs
      | None => Failure (lit "Could not find artist: " ++ artist ++ lit ".")
      end
  end.

(** Lines 16-69: [generate_playlist()], with the two query parameters. *)
Definition generate_playlist (language artist : option str) : Reply :=
  match get_mood_from_webcam with
  | Raises => server_error
  | Ok mood =>
      match truthy mood with
      | None => Failure (lit "Could not detect mood.")
      | Some mood =>
          match truthy artist with
          | Some artist => artist_playlist artist
          | None => mood_playlist mood language
          end
      end
  end.

End Route.

End App.

(* ================================================================== *)
(** * Well-formed answers *)
(* ================================================================== *)

Module Answers.

Import PyStr GroqApi.
Local Open Scope N_scope.

(** A character that is no line break and no backtick. *)
Definition plain_char (x : char) : bool :=
  negb ((x =? LF) || (x =? CR) || (x =? backtick)).

(** A name as the prompt asks for it: a line that the cleaning leaves as it
    is, with a letter, without a preamble marker, line break or backtick. *)
Definition tidy_name (lower : str -> str) (name : str) : bool :=
  str_eqb (clean_item name) name && has_letter name
  && negb (is_preamble lower name) && forallb plain_char name.

(** A line that holds none of the three separators. *)
Definition no_separator (line : str) : bool :=
  negb (contains comma line || contains bullet_sep line || contains pipe_sep line).

(** A name that holds no comma, no vertical bar and no bullet. *)
Definition free_of_separators (name : str) : bool :=
  forallb (fun x => negb ((x =? 44) || (x =? 124) || (x =? 8226))) name.

End Answers.

(* ================================================================== *)
(** * Sample environment and collaborators *)
(* ================================================================== *)

Module MoreSamples.

Import PyStr GroqApi GroqEntry App.

(** A [time.sleep] whose clock counts the nanoseconds on 63 bits: it
    refuses the negative durations and those of more than [2 ** 63 - 1]
    nanoseconds. *)
Definition clock_sleep (delay : Q) : bool :=
  Qle_bool 0 delay && Qle_bool delay ((2 ^ 63 - 1) # (10 ^ 9)).

(** The default settings with 1026 retries. *)
Definition many_tries : GroqArtistConfig := {|
  api_key := lit "key";
  model := lit "llama-3.1-8b-instant";
  temperature := 1 # 10;
  max_tokens := 256;
  retries := 1026;
  backoff_initial := 6 # 10;
  backoff_max := 6;
  enforce_count := 10
|}.

Definition ten_names : list str :=
  [lit "Adele"; lit "Drake"; lit "Sia"; lit "Muse"; lit "Queen";
   lit "Oasis"; lit "Blur"; lit "Abba"; lit "Toto"; lit "Korn"].

(** An environment that sets the key only. *)
Definition key_only : str -> option str :=
  fun name => if str_eqb name (lit "GROQ_API_KEY") then Some (lit "key") else None.

(** Conversions that refuse every text: the defaults are taken. *)
Definition no_int : str -> option Z := fun _ => None.
Definition no_float : str -> option Q := fun _ => None.

Definition sample_url : str := lit "https://open.spotify.com/playlist/1".

(** A capture that detects the mood happy, and builders that succeed. *)
Definition detects_happy : Try (option str) := Ok (Some (lit "happy")).
Definition builds_for_one : str -> str -> Try (option str * list str) :=
  fun _ _ => Ok (Some sample_url, [lit "Hello"]).
Definition builds_from_artists : list str -> str -> str -> Try (option str * list str) :=
  fun artists _ _ => Ok (Some sample_url, artists).

End MoreSamples.

(* ================================================================== *)
(** * Properties of the mood aggregation *)
(* ================================================================== *)

Import PyStr FaceMood.

Lemma str_eqb_eq (a b : str) : str_eqb a b = true <-> a = b.
Proof.
  unfold str_eqb. destruct (list_eq_dec N.eq_dec a b); split; congruence.
Qed.

Lemma str_eqb_refl (a : str) : str_eqb a a = true.
Proof. now apply str_eqb_eq. Qed.

Lemma str_eqb_neq (a b : str) : str_eqb a b = false <-> a <> b.
Proof.
  unfold str_eqb. destruct (list_eq_dec N.eq_dec a b); split; congruence.
Qed.

Lemma drop_while_nil (p : char -> bool) (s : str) :
  drop_while p s = [] <-> forallb p s = true.
Proof.
  induction s as [|c s IH]; simpl; [tauto|].
  destruct (p c); simpl; [exact IH|]. split; discriminate.
Qed.

Lemma drop_while_head (p : char -> bool) (s r : str) (c : char) :
  drop_while p s = c :: r -> p c = false.
Proof.
  induction s as [|d s IH]; simpl; [discriminate|].
  destruct (p d) eqn:Hd; [exact IH|]. intros [= -> _]. exact Hd.
Qed.

(** A string is empty once stripped exactly when it is made of white
    space only. *)
Lemma strip_nil (s : str) : strip s = [] <-> forallb isspace s = true.
Proof.
  unfold strip, rstrip, lstrip. split.
  - intros H. apply drop_while_nil.
    destruct (drop_while isspace s) as [|c r] eqn:E; [reflexivity|].
    exfalso. apply drop_while_head in E.
    apply (f_equal (@rev char)) in H. rewrite rev_involutive in H.
    simpl in H. apply drop_while_nil in H.
    rewrite forallb_forall in H.
    rewrite (H c) in E; [discriminate|].
    apply in_or_app. right. now left.
  - intros H. apply drop_while_nil in H. now rewrite H.
Qed.

Section CounterFacts.

Variable K : Type.
Variable eqb : K -> K -> bool.
Hypothesis eqb_eq : forall a b, eqb a b = true <-> a = b.

Local Abbreviation keys := (@keys K).
Local Abbreviation counts := (counts eqb).

Lemma eqb_same (a : K) : eqb a a = true.
Proof. now apply eqb_eq. Qed.

Lemma eqb_diff (a b : K) : a <> b -> eqb a b = false.
Proof.
  intros Hab. destruct (eqb a b) eqn:E; [|reflexivity].
  apply eqb_eq in E. contradiction.
Qed.

Lemma key_dec (a b : K) : {a = b} + {a <> b}.
Proof.
  destruct (eqb a b) eqn:E.
  - left. now apply eqb_eq.
  - right. intros ->. rewrite eqb_same in E. discriminate.
Qed.

Lemma Counter_of_snoc (l : list K) (x : K) :
  Counter_of eqb (l ++ [x]) = count_element eqb x (Counter_of eqb l).
Proof. unfold Counter_of. now rewrite fold_left_app. Qed.

(** An element already counted has its first entry incremented in place; a
    new one gets an entry at the end. *)
Lemma count_element_present (e : K) (c : Counter K) :
  In e (keys c) ->
  exists a n b, c = a ++ (e, n) :: b /\ ~ In e (keys a) /\
                count_element eqb e c = a ++ (e, S n) :: b.
Proof.
  induction c as [|[k n] c IH]; simpl; [tauto|].
  intros Hin. destruct (key_dec e k) as [->|Hne].
  - exists [], n, c. rewrite eqb_same. simpl. tauto.
  - destruct Hin as [Hk|Hin]; [congruence|].
    destruct (IH Hin) as (a & n' & b & -> & Ha & Hc).
    exists ((k, n) :: a), n', b. rewrite (eqb_diff Hne), Hc. simpl.
    repeat split; trivial. intros [Hk|Hk]; [congruence|tauto].
Qed.

Lemma count_element_absent (e : K) (c : Counter K) :
  ~ In e (keys c) -> count_element eqb e c = c ++ [(e, 1%nat)].
Proof.
  induction c as [|[k n] c IH]; simpl; [reflexivity|].
  intros Hin. rewrite eqb_diff by intuition congruence.
  rewrite IH by tauto. reflexivity.
Qed.

Lemma occurrences_snoc (k x : K) (l : list K) :
  occurrences eqb k (l ++ [x]) =
  (occurrences eqb k l + if eqb k x then 1 else 0)%nat.
Proof.
  unfold occurrences. rewrite filter_app, length_app. simpl.
  destruct (eqb k x); reflexivity.
Qed.

Lemma occurrences_pos (k : K) (l : list K) :
  In k l -> (0 < occurrences eqb k l)%nat.
Proof.
  unfold occurrences. induction l as [|y l IH]; simpl; [tauto|].
  intros [->|Hin].
  - rewrite eqb_same. simpl. lia.
  - destruct (eqb k y); simpl; [lia|tauto].
Qed.

Lemma Counter_of_counts (l : list K) : counts l (Counter_of eqb l).
Proof.
  induction l as [|x l IH] using rev_ind.
  - repeat split; simpl; try tauto; constructor.
  - destruct IH as (Hnd & Hkeys & Hall). rewrite Counter_of_snoc.
    unfold counts.
    destruct (in_dec key_dec x (keys (Counter_of eqb l))) as [Hin|Hout].
    + destruct (count_element_present _ _ Hin) as (a & n & b & Hc & Ha & ->).
      rewrite Hc in *. unfold keys in *. rewrite map_app in *. simpl in *.
      repeat split.
      * exact Hnd.
      * intros Hk. apply in_or_app. left. now apply Hkeys.
      * intros Hk. apply in_app_or in Hk. destruct Hk as [Hk|[<-|[]]].
        -- now apply Hkeys.
        -- apply in_or_app. right. now left.
      * apply NoDup_remove_2 in Hnd.
        apply Forall_app in Hall. destruct Hall as [Hfa Hfb].
        inversion Hfb as [|p q Hp Hq]; subst. simpl in Hp.
        apply Forall_app. split; [|constructor].
        -- rewrite Forall_forall in *. intros p Hp'. rewrite occurrences_snoc.
           rewrite eqb_diff; [rewrite (Hfa p Hp'); lia|].
           intros E. apply Ha. rewrite <- E. now apply in_map.
        -- simpl. rewrite occurrences_snoc, eqb_same. lia.
        -- rewrite Forall_forall in *. intros p Hp'. rewrite occurrences_snoc.
           rewrite eqb_diff; [rewrite (Hq p Hp'); lia|].
           intros E. apply Hnd. apply in_or_app. right.
           rewrite <- E. now apply in_map.
    + rewrite (count_element_absent _ _ Hout).
      unfold keys in *. rewrite map_app. simpl. repeat split.
      * apply NoDup_app; [exact Hnd|repeat constructor; simpl; tauto|].
        intros y Hy [<-|[]]. contradiction.
      * intros Hk. apply in_app_or in Hk. apply in_or_app.
        destruct Hk as [Hk|Hk]; [left; now apply Hkeys|now right].
      * intros Hk. apply in_app_or in Hk. apply in_or_app.
        destruct Hk as [Hk|Hk]; [left; now apply Hkeys|now right].
      * apply Forall_app. split.
        -- rewrite Forall_forall in *. intros p Hp. rewrite occurrences_snoc.
           rewrite eqb_diff; [rewrite (Hall p Hp); lia|].
           intros E. apply Hout. rewrite <- E. now apply in_map.
        -- constructor; [|constructor]. simpl.
           rewrite occurrences_snoc, eqb_same.
           assert (occurrences eqb x l = 0%nat) as ->; [|reflexivity].
           destruct (occurrences eqb x l) eqn:E; [reflexivity|].
           exfalso. apply Hout, Hkeys.
           unfold occurrences in E.
           destruct (filter (eqb x) l) as [|y r] eqn:F; [discriminate|].
           assert (Hy : In y (filter (eqb x) l)) by (rewrite F; now left).
           apply filter_In in Hy. destruct Hy as [Hy Hxy].
           apply eqb_eq in Hxy. now subst.
Qed.

(** The keys of the counter come in the order in which the labels are
    first met: a key that comes before another occurs in the list before
    any occurrence of the other. *)
Lemma Counter_of_order (l : list K) (a b : list K) (k1 k2 : K) :
  keys (Counter_of eqb l) = a ++ k1 :: b -> In k2 b ->
  exists l1 l2, l = l1 ++ k1 :: l2 /\ ~ In k2 l1.
Proof.
  revert a b k1 k2. induction l as [|x l IH] using rev_ind; intros a b k1 k2.
  - simpl. intros E. destruct a; discriminate.
  - rewrite Counter_of_snoc. intros E Hk2.
    destruct (Counter_of_counts l) as (_ & Hkeys & _).
    destruct (in_dec key_dec x (keys (Counter_of eqb l))) as [Hin|Hout].
    + destruct (count_element_present _ _ Hin) as (a' & n & b' & Hc & _ & Hc').
      rewrite Hc' in E. unfold keys in *.
      assert (E' : map fst (Counter_of eqb l) = a ++ k1 :: b).
      { rewrite Hc, <- E, !map_app. reflexivity. }
      destruct (IH _ _ _ _ E' Hk2) as (l1 & l2 & -> & Hl1).
      exists l1, (l2 ++ [x]). split; [|exact Hl1].
      rewrite <- app_assoc. reflexivity.
    + rewrite (count_element_absent _ _ Hout) in E.
      unfold keys in *. rewrite map_app in E. simpl in E.
      destruct b as [|z b _] using rev_ind; [destruct Hk2|].
      change (a ++ k1 :: b ++ [z]) with (a ++ (k1 :: b) ++ [z]) in E.
      rewrite app_assoc in E. apply app_inj_tail in E. destruct E as [E <-].
      apply in_app_or in Hk2. destruct Hk2 as [Hk2|[<-|[]]].
      * destruct (IH _ _ _ _ E Hk2) as (l1 & l2 & -> & Hl1).
        exists l1, (l2 ++ [x]). split; [|exact Hl1].
        rewrite <- app_assoc. reflexivity.
      * assert (Hk1 : In k1 l).
        { apply Hkeys. rewrite E. apply in_or_app. right. now left. }
        apply in_split in Hk1. destruct Hk1 as (l1 & l2 & ->).
        exists l1, (l2 ++ [x]). split.
        -- rewrite <- app_assoc. reflexivity.
        -- intros Hx. apply Hout, Hkeys. apply in_or_app. now left.
Qed.

(** [max] returns the first of the items with the greatest count. *)
Lemma max_by_count_first (items : Counter K) (best : K * nat) :
  exists a b, best :: items = a ++ max_by_count best items :: b /\
    Forall (fun p => (snd p < snd (max_by_count best items))%nat) a /\
    Forall (fun p => (snd p <= snd (max_by_count best items))%nat) b.
Proof.
  revert best. induction items as [|item items IH]; intros best; simpl.
  - exists [], []. repeat split; constructor.
  - destruct (Nat.ltb_spec (snd best) (snd item)) as [Hlt|Hge].
    + destruct (IH item) as (a & b & E & Ha & Hb).
      exists (best :: a), b. rewrite E at 1. repeat split; trivial.
      constructor; trivial.
      assert (Hitem : (snd item <= snd (max_by_count item items))%nat).
      { destruct a as [|p a]; simpl in E.
        - injection E as E _. rewrite <- E. lia.
        - injection E as E _. inversion Ha; subst. lia. }
      lia.
    + destruct (IH best) as (a & b & E & Ha & Hb).
      destruct a as [|p a]; simpl in E.
      * injection E as E1 E2. subst b. exists [], (item :: items).
        rewrite <- E1 in *. repeat split; trivial.
        constructor; trivial.
      * injection E as E1 E2. subst p. exists (best :: item :: a), b.
        rewrite E2 at 1. repeat split; trivial.
        inversion Ha; subst. repeat constructor; trivial. lia.
Qed.

Lemma first_index_le (x : K) (l1 l2 : list K) :
  (first_index eqb x (l1 ++ x :: l2) <= length l1)%nat.
Proof.
  induction l1 as [|y l1 IH]; simpl.
  - rewrite eqb_same. lia.
  - destruct (eqb x y); lia.
Qed.

Lemma first_index_ge (x : K) (l1 l2 : list K) :
  ~ In x l1 -> (length l1 <= first_index eqb x (l1 ++ l2))%nat.
Proof.
  induction l1 as [|y l1 IH]; simpl; [lia|].
  intros Hx. rewrite eqb_diff by intuition congruence.
  apply le_n_S, IH. tauto.
Qed.

(** [Counter(l).most_common(1)[0][0]] on a list that is not empty: the
    most frequent label, the first encountered among the most frequent. *)
Lemma most_common_1_spec (l : list K) :
  l <> [] ->
  exists m, first_key (most_common_1 (Counter_of eqb l)) = Some m /\
            most_frequent_first eqb l m.
Proof.
  intros Hl. destruct (Counter_of_counts l) as (Hnd & Hkeys & Hall).
  destruct (Counter_of eqb l) as [|item items] eqn:HC.
  - destruct l as [|x l]; [congruence|].
    destruct (proj2 (Hkeys x) (or_introl eq_refl)).
  - simpl. destruct (max_by_count_first items item) as (a & b & E & Ha & Hb).
    set (r := max_by_count item items) in *.
    exists (fst r). split; [reflexivity|]. clearbody r.
    rewrite E in Hall, Hkeys, Hnd.
    assert (Hr : snd r = occurrences eqb (fst r) l).
    { apply Forall_app in Hall. destruct Hall as [_ Hall].
      now inversion Hall. }
    assert (Hm : In (fst r) l).
    { apply Hkeys. unfold keys. rewrite map_app. apply in_or_app.
      right. now left. }
    split; [exact Hm|]. intros x Hx.
    apply Hkeys in Hx. unfold keys in Hx. apply in_map_iff in Hx.
    destruct Hx as ([x' n] & <- & Hx). simpl.
    assert (Hn : n = occurrences eqb x' l).
    { rewrite Forall_forall in Hall. exact (Hall _ Hx). }
    rewrite <- Hn, <- Hr. apply in_app_or in Hx.
    rewrite Forall_forall in Ha, Hb.
    destruct Hx as [Hx|[Hx|Hx]].
    + specialize (Ha _ Hx). simpl in Ha. split; lia.
    + rewrite Hx. simpl. split; [lia|reflexivity].
    + specialize (Hb _ Hx). simpl in Hb. split; [lia|]. intros _.
      assert (Hk : keys (Counter_of eqb l) = map fst a ++ fst r :: map fst b).
      { unfold keys. rewrite HC, E, map_app. reflexivity. }
      assert (Hx' : In x' (map fst b)).
      { apply in_map_iff. exists (x', n). now split. }
      destruct (@Counter_of_order l _ _ _ _ Hk Hx') as (l1 & l2 & -> & Hl1).
      etransitivity; [apply first_index_le|now apply first_index_ge].
Qed.

End CounterFacts.

(** C3. The aggregation of [get_mood_from_webcam]: an empty series gives
    neutral; a series with a label other than neutral gives the most
    frequent of its labels other than neutral, the first encountered one
    among the most frequent, which is not neutral; a series of neutral
    labels only gives the most frequent label of the whole series, which is
    neutral. *)
Theorem final_mood_spec (series : list str) :
  match series, filter (fun mood => negb (str_eqb mood neutral)) series with
  | [], _ => final_mood series = Some neutral
  | _ :: _, [] =>
      final_mood series = Some neutral /\
      most_frequent_first str_eqb series neutral
  | _ :: _, (_ :: _) as emotional =>
      exists m, final_mood series = Some m /\ m <> neutral /\
                most_frequent_first str_eqb emotional m
  end.
Proof.
  destruct series as [|s series]; [reflexivity|].
  unfold final_mood.
  set (emotional := filter _ (s :: series)).
  destruct emotional as [|e emotional'] eqn:E.
  - destruct (@most_common_1_spec _ _ str_eqb_eq (s :: series))
      as (m & Hm & Hfreq); [discriminate|].
    assert (m = neutral) as ->; [|now split].
    destruct Hfreq as [Hin _].
    destruct (list_eq_dec N.eq_dec m neutral) as [|Hne]; [assumption|].
    assert (Hin' : In m emotional).
    { apply filter_In. split; [exact Hin|].
      apply negb_true_iff. now apply str_eqb_neq. }
    rewrite E in Hin'. destruct Hin'.
  - destruct (@most_common_1_spec _ _ str_eqb_eq (e :: emotional'))
      as (m & Hm & Hfreq); [discriminate|].
    exists m. repeat split; try apply Hfreq; trivial.
    destruct Hfreq as [Hin _]. rewrite <- E in Hin.
    apply filter_In in Hin. destruct Hin as [_ Hin].
    apply negb_true_iff in Hin. now apply str_eqb_neq.
Qed.

(** The sample series of the specification. *)
Example final_mood_happy :
  final_mood [Samples.happy; neutral; Samples.happy; Samples.sad]
  = Some Samples.happy.
Proof. reflexivity. Qed.

Example final_mood_all_neutral : final_mood [neutral; neutral] = Some neutral.
Proof. reflexivity. Qed.

(* ================================================================== *)
(** * Properties of the parser *)
(* ================================================================== *)

Import GroqApi Words.

Lemma startswith_prefix (p s : str) :
  startswith p s = true -> exists t, s = p ++ t.
Proof.
  revert s. induction p as [|a p IH]; intros s; simpl.
  - intros _. now exists s.
  - destruct s as [|b s]; [discriminate|].
    intros H. apply andb_true_iff in H. destruct H as [Hab Hp].
    apply N.eqb_eq in Hab. subst b.
    destruct (IH _ Hp) as [t ->]. now exists t.
Qed.

Lemma startswith_app (p t : str) : startswith p (p ++ t) = true.
Proof. induction p as [|a p IH]; simpl; [reflexivity|]. now rewrite N.eqb_refl. Qed.

Lemma contains_inside (p s : str) :
  contains p s = true -> exists a t, s = a ++ p ++ t.
Proof.
  induction s as [|c s IH]; simpl.
  - rewrite orb_false_r. intros H. exists []. now apply startswith_prefix.
  - intros H. apply orb_true_iff in H. destruct H as [H|H].
    + exists []. now apply startswith_prefix.
    + destruct (IH H) as (a & t & ->). now exists (c :: a), t.
Qed.

(** A string without one of the characters of [p] does not hold [p]. *)
Lemma contains_absent (c : char) (p s : str) :
  In c p -> Forall (fun x => x <> c) s -> contains p s = false.
Proof.
  intros Hc Hs. destruct (contains p s) eqn:E; [|reflexivity]. exfalso.
  destruct (contains_inside _ _ E) as (a & t & ->).
  rewrite Forall_forall in Hs. apply (Hs c); [|reflexivity].
  apply in_or_app. right. apply in_or_app. now left.
Qed.

Lemma contains_after (p a t : str) : contains p (a ++ p ++ t) = true.
Proof.
  induction a as [|c a IH]; simpl app.
  - destruct (p ++ t) eqn:E; simpl; rewrite <- E, startswith_app; reflexivity.
  - simpl. rewrite IH. apply orb_true_r.
Qed.

Lemma contains_startswith (p s : str) :
  startswith p s = true -> contains p s = true.
Proof. intros H. destruct s; simpl; now rewrite H. Qed.

Lemma startswith_extend (p s t : str) :
  startswith p s = true -> startswith p (s ++ t) = true.
Proof.
  intros H. destruct (startswith_prefix _ _ H) as [u ->].
  rewrite <- app_assoc. apply startswith_app.
Qed.

(** A text shorter than [p] does not hold [p]. *)
Lemma contains_short (p s : str) :
  (length s < length p)%nat -> contains p s = false.
Proof.
  intros Hlen. destruct (contains p s) eqn:E; [|reflexivity]. exfalso.
  destruct (contains_inside _ _ E) as (a & t & ->).
  rewrite !length_app in Hlen. lia.
Qed.

Lemma removelast_short (sep : str) :
  sep <> [] -> (length (removelast sep) < length sep)%nat.
Proof.
  intros Hne. rewrite (app_removelast_last 0%N Hne) at 2.
  rewrite length_app. cbn [length]. unfold char. lia.
Qed.

(** Of two prefixes of one text the shorter is a prefix of the longer. *)
Lemma prefix_of_prefix (a b x y : str) :
  a ++ x = b ++ y -> (length a <= length b)%nat -> exists z, b = a ++ z.
Proof.
  revert b. induction a as [|c a IH]; intros b E Hlen.
  - now exists b.
  - destruct b as [|d b]; [simpl in Hlen; lia|].
    injection E as -> E. destruct (IH b E) as [z ->]; [simpl in Hlen; lia|].
    now exists z.
Qed.

(** The characters of an occurrence that was found are passed over. *)
Lemma split_from_skip (sep t s : str) :
  split_from sep (length t) (t ++ s) = split_from sep 0 s.
Proof.
  induction t as [|c t IH]; [reflexivity|]. simpl.
  destruct t; exact IH.
Qed.

Lemma split_at_separator (sep rest : str) :
  sep <> [] -> split sep (sep ++ rest) = [] :: split sep rest.
Proof.
  intros Hne. destruct sep as [|c sep']; [congruence|].
  unfold split. change ((c :: sep') ++ rest) with (c :: (sep' ++ rest)).
  cbn [split_from].
  change (c :: sep' ++ rest) with ((c :: sep') ++ rest).
  rewrite startswith_app.
  replace (length (c :: sep') - 1)%nat with (length sep') by (simpl; lia).
  now rewrite split_from_skip.
Qed.

Lemma split_at_other (sep : str) (c : char) (s : str) :
  startswith sep (c :: s) = false ->
  split sep (c :: s) = cons_head c (split sep s).
Proof. intros H. unfold split. cbn [split_from]. now rewrite H. Qed.

(** A character that does not start an occurrence goes to the first piece. *)
Lemma split_at_cons_head (sep : str) (c : char) (s : str) (pieces : list str) :
  sep <> [] ->
  startswith sep (c :: s) = false ->
  split_at sep s pieces ->
  split_at sep (c :: s) (cons_head c pieces).
Proof.
  intros Hne Hstart H. destruct H as [s Hs|piece rest pieces Hp Hrest].
  - simpl. apply split_at_last. simpl. now rewrite Hstart.
  - simpl. change (c :: piece ++ sep ++ rest) with ((c :: piece) ++ sep ++ rest).
    apply split_at_piece; [|assumption].
    change ((c :: piece) ++ removelast sep) with (c :: (piece ++ removelast sep)).
    cbn [contains]. rewrite Hp, orb_false_r.
    destruct (startswith sep (c :: piece ++ removelast sep)) eqn:E;
      [|reflexivity].
    apply (startswith_extend _ _ ([last sep 0%N] ++ rest)) in E.
    assert (Eq : (c :: piece ++ removelast sep) ++ [last sep 0%N] ++ rest
                 = c :: piece ++ sep ++ rest).
    { transitivity (c :: piece ++ (removelast sep ++ [last sep 0%N]) ++ rest).
      - simpl. now rewrite <- !app_assoc.
      - now rewrite <- app_removelast_last. }
    rewrite Eq in E. congruence.
Qed.

(** [split] cuts a text at the occurrences of the separator met from left
    to right. *)
Lemma split_at_split (sep s : str) : sep <> [] -> split_at sep s (split sep s).
Proof.
  intros Hne.
  assert (H : forall n s, (length s <= n)%nat -> split_at sep s (split sep s)).
  { clear s. induction n as [|n IH]; intros s Hlen.
    - destruct s; [|simpl in Hlen; lia]. apply split_at_last.
      apply contains_short. destruct sep; [congruence|simpl; lia].
    - destruct s as [|c s].
      + apply split_at_last. apply contains_short.
        destruct sep; [congruence|simpl; lia].
      + destruct (startswith sep (c :: s)) eqn:E.
        * destruct (startswith_prefix _ _ E) as [rest Erest]. rewrite Erest.
          rewrite split_at_separator by assumption.
          apply (@split_at_piece sep [] rest).
          -- apply contains_short. now apply removelast_short.
          -- apply IH. apply (f_equal (@length char)) in Erest.
             rewrite length_app in Erest. simpl in Erest, Hlen.
             destruct sep; [congruence|simpl in Erest; lia].
        * rewrite split_at_other by assumption.
          apply split_at_cons_head; trivial. apply IH. simpl in Hlen. lia. }
  now apply (H (length s)).
Qed.

(** Where an occurrence begins before the end of [p'], it begins inside
    [p'] followed by all of the separator but its last character. *)
Lemma occurrence_inside (sep p p' r r' : str) :
  sep <> [] ->
  p ++ sep ++ r = p' ++ sep ++ r' ->
  (length p < length p')%nat ->
  contains sep (p' ++ removelast sep) = true.
Proof.
  intros Hne. revert p'. induction p as [|c p IH]; intros p' E Hlen.
  - apply contains_startswith. simpl in E.
    assert (E' : sep ++ r = (p' ++ removelast sep) ++ [last sep 0%N] ++ r').
    { rewrite E. rewrite (app_removelast_last 0%N Hne) at 1.
      now rewrite <- !app_assoc. }
    destruct (prefix_of_prefix _ _ _ _ E') as [z ->]; [|apply startswith_app].
    rewrite length_app. assert (Hs := removelast_short Hne).
    rewrite (app_removelast_last 0%N Hne) at 1. rewrite length_app.
    cbn [length] in *. unfold str, char in *. lia.
  - destruct p' as [|c' p']; [simpl in Hlen; lia|].
    injection E as -> E. simpl. rewrite (IH p' E) by (simpl in Hlen; lia).
    apply orb_true_r.
Qed.

(** The cut of a text at a separator is determined. *)
Lemma split_at_unique (sep s : str) (pieces pieces' : list str) :
  sep <> [] ->
  split_at sep s pieces -> split_at sep s pieces' -> pieces = pieces'.
Proof.
  intros Hne H. revert pieces'.
  induction H as [s Hs|piece rest pieces Hp Hrest IH]; intros pieces' H'.
  - inversion H' as [s' Hs'|piece' rest' ps' Hp' Hrest' E]; subst; [reflexivity|].
    rewrite contains_after in Hs. discriminate.
  - inversion H' as [s' Hs'|piece' rest' ps' Hp' Hrest' E]; subst.
    + rewrite contains_after in Hs'. discriminate.
    + assert (Hpiece : piece' = piece).
      { destruct (Nat.lt_trichotomy (length piece') (length piece))
          as [Hlt|[Heq|Hgt]].
        - rewrite (occurrence_inside _ _ _ _ Hne E Hlt) in Hp. discriminate.
        - destruct (prefix_of_prefix _ _ _ _ E) as [z Ez]; [lia|].
          rewrite Ez, length_app in Heq. destruct z; [|simpl in Heq; lia].
          now rewrite app_nil_r in Ez.
        - rewrite (occurrence_inside _ _ _ _ Hne (eq_sym E) Hgt) in Hp'.
          discriminate. }
      subst piece'. apply app_inv_head in E. apply app_inv_head in E.
      subst rest'. f_equal. now apply IH.
Qed.

(** C4. The list the loop runs over: a response of exactly one non-blank
    line that holds a candidate separator is cut at the occurrences of the
    pipe separator when the line has one, else of the bullet separator
    when it has one, else of the comma, and the pieces, stripped, are the
    list, without those that are empty; any other response, one of several
    lines in particular, keeps its lines as they are. *)
Theorem candidate_lines_precedence (raw : str) :
  match nonblank_lines (strip_fences (strip raw)) with
  | [line] =>
      if contains comma line || contains bullet_sep line || contains pipe_sep line
      then
        let sep := if contains pipe_sep line then pipe_sep
                   else if contains bullet_sep line then bullet_sep
                   else comma in
        contains sep line = true /\
        exists pieces,
          split_at sep line pieces /\
          (2 <= length pieces)%nat /\
          candidate_lines raw =
          filter (fun p => negb (str_eqb p [])) (map strip pieces)
      else candidate_lines raw = [line]
  | lines => candidate_lines raw = lines
  end.
Proof.
  unfold candidate_lines, resplit, choose_sep, split_pieces.
  destruct (nonblank_lines (strip_fences (strip raw))) as [|line [|line' rest]];
    try reflexivity.
  assert (Hcut : forall sep, sep <> [] -> contains sep line = true ->
    contains sep line = true /\
    exists pieces,
      split_at sep line pieces /\ (2 <= length pieces)%nat /\
      filter (fun p => negb (str_eqb p [])) (map strip (split sep line))
      = filter (fun p => negb (str_eqb p [])) (map strip pieces)).
  { intros sep Hne Hsep. split; [assumption|].
    exists (split sep line). split; [now apply split_at_split|].
    split; [|reflexivity].
    assert (H := split_at_split line Hne).
    destruct H as [s Hs|piece rest pieces Hp Hrest]; [congruence|].
    destruct Hrest; simpl; lia. }
  destruct (contains pipe_sep line) eqn:Hpipe.
  - rewrite !orb_true_r. cbv zeta. now apply Hcut.
  - destruct (contains bullet_sep line) eqn:Hbullet.
    + rewrite orb_true_r. simpl orb. cbv zeta. now apply Hcut.
    + assert (Hc := Hcut comma ltac:(discriminate)).
      destruct (contains comma line); simpl orb; cbv iota zeta; [|reflexivity].
      exact (Hc eq_refl).
Qed.

(** The pieces of the cut, joined with the separator, are the line. *)
Lemma split_at_join (sep s : str) (pieces : list str) :
  split_at sep s pieces -> GroqEntry.join sep pieces = s.
Proof.
  induction 1 as [s Hs|piece rest pieces Hp Hrest IH]; [reflexivity|].
  destruct pieces as [|q pieces]; [inversion Hrest|].
  change (GroqEntry.join sep (piece :: q :: pieces))
    with (piece ++ sep ++ GroqEntry.join sep (q :: pieces)).
  now rewrite IH.
Qed.

Example mixed_line_split_at_pipe :
  candidate_lines Samples.mixed_line = [lit "Adele, Drake"; lit "Sia, Muse"].
Proof. reflexivity. Qed.

Example two_lines_not_split :
  candidate_lines (lit "Adele, Drake" ++ [LF] ++ lit "Sia | Muse")
  = [lit "Adele, Drake"; lit "Sia | Muse"].
Proof. reflexivity. Qed.

Lemma subsequence_refl (A : Type) (l : list A) : subsequence l l.
Proof. induction l; constructor; assumption. Qed.

Lemma subsequence_firstn (A : Type) (s l : list A) (k : nat) :
  subsequence s l -> subsequence (firstn k s) l.
Proof.
  intros H. revert k. induction H; intros k.
  - rewrite firstn_nil. constructor.
  - destruct k; simpl; constructor. apply IHsubsequence.
  - constructor. apply IHsubsequence.
Qed.

Lemma NoDup_firstn_of (A : Type) (l : list A) (k : nat) :
  NoDup l -> NoDup (firstn k l).
Proof.
  intros H. rewrite <- (firstn_skipn k l) in H.
  now apply NoDup_app_remove_r in H.
Qed.

Lemma slice_to_firstn (A : Type) (n : Z) (l : list A) :
  exists k, slice_to n l = firstn k l.
Proof. unfold slice_to. destruct (0 <=? n)%Z; eexists; reflexivity. Qed.

Lemma existsb_str_eqb (k : str) (seen : list str) :
  existsb (str_eqb k) seen = true <-> In k seen.
Proof.
  rewrite existsb_exists. split.
  - intros (x & Hx & E). apply str_eqb_eq in E. now subst.
  - intros H. exists k. split; [assumption|apply str_eqb_refl].
Qed.

Section ParserFacts.

Variable lower : str -> str.
Variable casefold : str -> str.

(** The loop only adds to [cleaned], at its end, and what it adds are
    cleaned lines, in the order of the lines. *)
Lemma collect_extends (n : Z) (lines seen cleaned : list str) :
  exists added,
    collect lower casefold n lines seen cleaned = cleaned ++ added /\
    subsequence added (map clean_item lines).
Proof.
  revert seen cleaned. induction lines as [|line rest IH]; intros seen cleaned.
  - exists []. simpl. rewrite app_nil_r. split; constructor.
  - simpl.
    assert (Hskip : exists added,
      collect lower casefold n rest seen cleaned = cleaned ++ added /\
      subsequence added (clean_item line :: map clean_item rest)).
    { destruct (IH seen cleaned) as (added & E & Hs).
      exists added. split; [assumption|now constructor]. }
    destruct (is_preamble lower (clean_item line)); [exact Hskip|].
    destruct (negb (has_letter (clean_item line))); [exact Hskip|].
    destruct (existsb _ seen); [exact Hskip|].
    destruct (_ >=? n)%Z.
    + exists [clean_item line]. split; [reflexivity|].
      constructor. constructor.
    + destruct (IH (casefold (clean_item line) :: seen)
                   (cleaned ++ [clean_item line])) as (added & E & Hs).
      exists (clean_item line :: added). rewrite E, <- app_assoc.
      split; [reflexivity|now constructor].
Qed.

(** While [seen] holds the keys of [cleaned], no key is taken twice. *)
Lemma collect_NoDup (n : Z) (lines seen cleaned : list str) :
  NoDup (map casefold cleaned) ->
  (forall k, In k (map casefold cleaned) -> In k seen) ->
  NoDup (map casefold (collect lower casefold n lines seen cleaned)).
Proof.
  revert seen cleaned. induction lines as [|line rest IH];
    intros seen cleaned Hnd Hseen; simpl; [assumption|].
  destruct (is_preamble lower (clean_item line)); [now apply IH|].
  destruct (negb (has_letter (clean_item line))); [now apply IH|].
  destruct (existsb _ seen) eqn:Hmem; [now apply IH|].
  assert (Hnew : NoDup (map casefold (cleaned ++ [clean_item line]))).
  { rewrite map_app. simpl. apply NoDup_app; [assumption| |].
    - repeat constructor. simpl. tauto.
    - intros k Hk [<-|[]]. apply Hseen, existsb_str_eqb in Hk. congruence. }
  destruct (_ >=? n)%Z; [assumption|].
  apply IH; [assumption|].
  intros k Hk. rewrite map_app in Hk. apply in_app_or in Hk.
  destruct Hk as [Hk|[<-|[]]]; [right; now apply Hseen|now left].
Qed.

(** No line whose cleaned, lower-cased text holds a preamble marker gets
    into [cleaned]. *)
Lemma collect_no_preamble (n : Z) (lines seen cleaned : list str) :
  Forall (fun item => is_preamble lower item = false) cleaned ->
  Forall (fun item => is_preamble lower item = false)
         (collect lower casefold n lines seen cleaned).
Proof.
  revert seen cleaned. induction lines as [|line rest IH];
    intros seen cleaned Hc; simpl; [assumption|].
  destruct (is_preamble lower (clean_item line)) eqn:Hp; [now apply IH|].
  destruct (negb (has_letter (clean_item line))); [now apply IH|].
  destruct (existsb _ seen); [now apply IH|].
  assert (Hnew : Forall (fun item => is_preamble lower item = false)
                        (cleaned ++ [clean_item line])).
  { apply Forall_app. split; [assumption|]. now repeat constructor. }
  destruct (_ >=? n)%Z; [assumption|]. now apply IH.
Qed.

(** The loop consults [lower] and [casefold] on the cleaned lines only. *)
Lemma collect_ext (lower' casefold' : str -> str) (n : Z)
      (lines seen cleaned : list str) :
  Forall (fun line => lower (clean_item line) = lower' (clean_item line) /\
                      casefold (clean_item line) = casefold' (clean_item line))
         lines ->
  collect lower casefold n lines seen cleaned =
  collect lower' casefold' n lines seen cleaned.
Proof.
  intros H. revert seen cleaned.
  induction H as [|line rest [Hl Hc] _ IH]; intros seen cleaned; simpl;
    [reflexivity|].
  unfold is_preamble. rewrite Hl, Hc.
  destruct (existsb _ preamble_markers); [apply IH|].
  destruct (negb (has_letter (clean_item line))); [apply IH|].
  destruct (existsb _ seen); [apply IH|].
  destruct (_ >=? n)%Z; [reflexivity|apply IH].
Qed.

(** What is returned is the result of the loop, or a prefix of it. *)
Lemma _parse_artists_prefix (raw : str) (n : Z) :
  exists k, _parse_artists lower casefold (Some raw) n =
            firstn k (collect lower casefold n (candidate_lines raw) [] []).
Proof.
  unfold _parse_artists. destruct raw as [|c raw].
  - exists O. reflexivity.
  - destruct (_ >? n)%Z.
    + apply slice_to_firstn.
    + eexists. symmetry. apply firstn_all.
Qed.

Hypothesis lower_ascii : forall s, is_ascii s = true -> lower s = ascii_lower s.
Hypothesis casefold_ascii :
  forall s, is_ascii s = true -> casefold s = ascii_lower s.

(** On a text whose cleaned lines are ASCII the parser can be run with the
    ASCII lower-casing. *)
Lemma _parse_artists_ascii (raw : str) (n : Z) :
  forallb (fun line => is_ascii (clean_item line)) (candidate_lines raw) = true ->
  _parse_artists lower casefold (Some raw) n =
  _parse_artists ascii_lower ascii_lower (Some raw) n.
Proof.
  intros H. unfold _parse_artists. destruct raw as [|c raw]; [reflexivity|].
  rewrite (@collect_ext ascii_lower ascii_lower); [reflexivity|].
  rewrite forallb_forall in H. apply Forall_forall. intros line Hline.
  split; [apply lower_ascii|apply casefold_ascii]; now apply H.
Qed.

Lemma _parse_artists_no_preamble (raw : option str) (n : Z) :
  Forall (fun item => is_preamble lower item = false)
         (_parse_artists lower casefold raw n).
Proof.
  destruct raw as [raw|]; [|constructor].
  destruct (_parse_artists_prefix raw n) as (k & ->).
  assert (H := @collect_no_preamble n (candidate_lines raw) [] [] (Forall_nil _)).
  rewrite Forall_forall in *. intros item Hitem. apply H.
  rewrite <- (firstn_skipn k). apply in_or_app. now left.
Qed.

(** C7. The three numbered lines, the third a repeat of the first, give
    Adele and Drake for a target of three: the markers are stripped from
    the lines, and a line whose case-folded text was met before is dropped
    inside the loop, before the comparison of the length with the target
    and before the truncation. In general the keys of the result are
    pairwise distinct and the result keeps the order of the lines. *)
Theorem parse_numbered_dedup :
  map clean_item (candidate_lines Samples.numbered_text)
    = [Samples.Adele; Samples.Drake; Samples.Adele] /\
  _parse_artists lower casefold (Some Samples.numbered_text) 3
    = [Samples.Adele; Samples.Drake] /\
  (forall raw n, NoDup (map casefold (_parse_artists lower casefold raw n))) /\
  (forall raw n,
      subsequence (_parse_artists lower casefold (Some raw) n)
                  (map clean_item (candidate_lines raw))).
Proof.
  split; [reflexivity|]. split; [|split].
  - rewrite _parse_artists_ascii by reflexivity. reflexivity.
  - intros [raw|] n; [|constructor].
    destruct (_parse_artists_prefix raw n) as (k & ->).
    rewrite <- firstn_map. apply NoDup_firstn_of.
    apply collect_NoDup; [constructor|intros k' []].
  - intros raw n. destruct (_parse_artists_prefix raw n) as (k & ->).
    apply subsequence_firstn.
    destruct (collect_extends n (candidate_lines raw) [] []) as (added & -> & H).
    exact H.
Qed.

(** C8. A candidate line whose text, once its marker and its quotes are
    stripped and once lower-cased, holds one of the five preamble markers
    is not in the result; the preamble line of the sample text is dropped
    and Adele and Drake are returned for a target of two. *)
Theorem parse_discards_preamble :
  preamble_markers
    = [lit "artists:"; lit "here are"; lit "list:"; lit "output"; lit "names:"] /\
  (forall raw n,
      Forall (fun line =>
                (exists marker, In marker preamble_markers /\
                                contains marker (lower (clean_item line)) = true) ->
                ~ In (clean_item line) (_parse_artists lower casefold (Some raw) n))
             (candidate_lines raw)) /\
  _parse_artists lower casefold (Some Samples.preamble_text) 2
    = [Samples.Adele; Samples.Drake].
Proof.
  split; [reflexivity|]. split.
  - intros raw n. apply Forall_forall. intros line _ (marker & Hm & Hc) Hin.
    assert (H := _parse_artists_no_preamble (Some raw) n).
    rewrite Forall_forall in H. specialize (H _ Hin).
    unfold is_preamble in H.
    assert (Ht : existsb (fun prefix => contains prefix (lower (clean_item line)))
                         preamble_markers = true).
    { apply existsb_exists. exists marker. now split. }
    congruence.
  - rewrite _parse_artists_ascii by reflexivity. reflexivity.
Qed.

End ParserFacts.

Lemma parse_numbered_dedup_witness :
  map clean_item (candidate_lines Samples.numbered_text)
    = [Samples.Adele; Samples.Drake; Samples.Adele] /\
  _parse_artists ascii_lower ascii_lower (Some Samples.numbered_text) 3
    = [Samples.Adele; Samples.Drake] /\
  (forall raw n,
      NoDup (map ascii_lower (_parse_artists ascii_lower ascii_lower raw n))) /\
  (forall raw n,
      subsequence (_parse_artists ascii_lower ascii_lower (Some raw) n)
                  (map clean_item (candidate_lines raw))).
Proof.
  apply (@parse_numbered_dedup ascii_lower ascii_lower); intros s _; reflexivity.
Defined.

Lemma parse_discards_preamble_witness :
  _parse_artists ascii_lower ascii_lower (Some Samples.preamble_text) 2
    = [Samples.Adele; Samples.Drake].
Proof.
  apply (@parse_discards_preamble ascii_lower ascii_lower); intros s _; reflexivity.
Defined.

(* ================================================================== *)
(** * Properties of the retry loop *)
(* ================================================================== *)

Import Words.

Lemma emit_fst (e : Event) (r : Outcome * list Event) : fst (emit e r) = fst r.
Proof. reflexivity. Qed.

(** A delay that is computed is the capped power of two. *)
Lemma backoff_delay_Some (cfg : GroqArtistConfig) (attempt : Z) (d : Q) :
  backoff_delay cfg attempt = Some d ->
  d = Qmin (backoff_initial cfg * inject_Z (2 ^ (attempt - 1))) (backoff_max cfg).
Proof.
  unfold backoff_delay. destruct (_ <=? _)%Z; [|discriminate]. now intros [= <-].
Qed.

Lemma backoff_delay_computed (cfg : GroqArtistConfig) (attempt : Z) :
  (attempt <= 1024)%Z ->
  backoff_delay cfg attempt =
  Some (Qmin (backoff_initial cfg * inject_Z (2 ^ (attempt - 1))) (backoff_max cfg)).
Proof.
  intros H. unfold backoff_delay, float_max_exp.
  destruct (Z.leb_spec (attempt - 1) 1023); [reflexivity|lia].
Qed.

Section ServiceFacts.

Variable lower : str -> str.
Variable casefold : str -> str.
Variable sleep_accepts : Q -> bool.
Variable cfg : GroqArtistConfig.
Variable backend : Z -> Response.

Local Abbreviation loop := (attempt_loop lower casefold sleep_accepts cfg backend).
Local Abbreviation run := (get_artists lower casefold sleep_accepts cfg backend).
Local Abbreviation exact := (exact_length lower casefold).
Local Abbreviation cleaned := (cleaned_list lower casefold).

(** A list that the loop returns is empty or has the target length. *)
Lemma loop_returns_exact_or_empty (target : Z) (todo : nat) (attempt : Z)
      (artists : list str) :
  fst (loop target todo attempt) = Returned artists ->
  artists = [] \/ Z.of_nat (length artists) = target.
Proof.
  revert attempt. induction todo as [|todo IH]; intros attempt; simpl.
  - intros [= <-]. now left.
  - unfold on_exception.
    destruct (backend attempt) as [|choices].
    + destruct (attempt <? attempts_of cfg)%Z.
      * destruct (backoff_delay cfg attempt) as [d|]; [|discriminate].
        destruct (sleep_accepts d); simpl; [apply IH|discriminate].
      * intros [= <-]. now left.
    + destruct (Z.eqb_spec
        (Z.of_nat (length (_parse_artists lower casefold (raw_of choices) target)))
        target) as [E|_].
      * intros [= <-]. now right.
      * destruct (attempt <? attempts_of cfg)%Z; [|apply IH].
        destruct (backoff_delay cfg attempt) as [d|]; [|discriminate].
        destruct (sleep_accepts d); simpl; [apply IH|discriminate].
Qed.

(** The loop sends at least one request when it has an iteration to run,
    and at most one per iteration. *)
Lemma loop_requests (target : Z) (todo : nat) (attempt : Z) :
  (requests (snd (loop target todo attempt)) <= todo)%nat /\
  (todo <> O -> 1 <= requests (snd (loop target todo attempt)))%nat.
Proof.
  revert attempt. induction todo as [|todo IH]; intros attempt; simpl.
  - split; [lia|congruence].
  - specialize (IH (attempt + 1)%Z). destruct IH as [IH _].
    split; [|lia]. apply le_n_S. unfold on_exception.
    destruct (backend attempt) as [|choices].
    + destruct (attempt <? attempts_of cfg)%Z; simpl; [|lia].
      destruct (backoff_delay cfg attempt) as [d|]; simpl; [|lia].
      destruct (sleep_accepts d); simpl; lia.
    + destruct (_ =? target)%Z; simpl; [lia|].
      destruct (attempt <? attempts_of cfg)%Z; simpl; [|lia].
      destruct (backoff_delay cfg attempt) as [d|]; simpl; [|lia].
      destruct (sleep_accepts d); simpl; lia.
Qed.

Lemma requests_backoff_schedule (b0 bmax : Q) (n : nat) (attempt : Z) :
  requests (backoff_schedule b0 bmax n attempt) = n.
Proof.
  revert attempt. induction n as [|n IH]; intros attempt; [reflexivity|].
  destruct n as [|n]; [reflexivity|].
  change (S (requests (backoff_schedule b0 bmax (S n) (attempt + 1))) = S (S n)).
  now rewrite IH.
Qed.

(** What follows the request of an attempt in the effects of the loop is
    nothing, or the rest of the loop, after a sleep or not. *)
Lemma loop_step (target : Z) (todo : nat) (attempt : Z) :
  let this := loop target (S todo) attempt in
  let next := loop target todo (attempt + 1) in
  (snd this = [Request attempt]) \/
  (fst this = fst next /\
   (snd this = Request attempt :: snd next \/
    exists d, snd this = Request attempt :: Sleep d :: snd next)).
Proof.
  cbn [attempt_loop]. unfold on_exception, emit.
  destruct (backend attempt) as [|choices].
  - destruct (_ <? _)%Z; [|now left].
    destruct (backoff_delay cfg attempt) as [d|]; [|now left].
    destruct (sleep_accepts d); [|now left].
    right. split; [reflexivity|]. right. now exists d.
  - destruct (_ =? target)%Z; [now left|].
    destruct (_ <? _)%Z.
    + destruct (backoff_delay cfg attempt) as [d|]; [|now left].
      destruct (sleep_accepts d); [|now left].
      right. split; [reflexivity|]. right. now exists d.
    + right. split; [reflexivity|]. now left.
Qed.

(** An attempt that is made and yields a list of the target length ends
    the loop: that list is returned and no further request is sent. *)
Lemma loop_exact_attempt (target : Z) (todo : nat) (attempt k : Z)
      (artists : list str) :
  In (Request k) (snd (loop target todo attempt)) ->
  cleaned target (backend k) = Some artists ->
  Z.of_nat (length artists) = target ->
  fst (loop target todo attempt) = Returned artists /\
  Z.of_nat (requests (snd (loop target todo attempt))) = (k - attempt + 1)%Z.
Proof.
  intros Hin Hclean Hexact. revert attempt Hin.
  induction todo as [|todo IH]; intros attempt Hin; [destruct Hin|].
  destruct (Z.eq_dec k attempt) as [->|Hne].
  - cbn [attempt_loop]. unfold cleaned_list in Hclean.
    destruct (backend attempt) as [|choices]; [discriminate|].
    injection Hclean as ->. rewrite Hexact, Z.eqb_refl. simpl.
    split; [reflexivity|lia].
  - destruct (loop_step target todo attempt) as [E|[Ef [E|[d E]]]];
      cbv zeta in *; rewrite E in Hin |- *; rewrite ?Ef.
    + destruct Hin as [[=]|[]]. congruence.
    + destruct Hin as [[=]|Hin]; [congruence|].
      destruct (IH _ Hin) as [H1 H2]. split; [assumption|].
      cbn [requests]. lia.
    + destruct Hin as [[=]|[[=]|Hin]]; [congruence|].
      destruct (IH _ Hin) as [H1 H2]. split; [assumption|].
      cbn [requests]. lia.
Qed.

(** When the last attempt is made and yields a list of another length,
    the loop ends and the empty list is returned. *)
Lemma loop_final_mismatch (target : Z) (todo : nat) (attempt : Z)
      (partial : list str) :
  (attempt + Z.of_nat todo = attempts_of cfg + 1)%Z ->
  In (Request (attempts_of cfg)) (snd (loop target todo attempt)) ->
  cleaned target (backend (attempts_of cfg)) = Some partial ->
  Z.of_nat (length partial) <> target ->
  fst (loop target todo attempt) = Returned [] /\
  requests (snd (loop target todo attempt)) = todo.
Proof.
  intros Hlen Hin Hclean Hmis. revert attempt Hlen Hin.
  induction todo as [|todo IH]; intros attempt Hlen Hin; [destruct Hin|].
  destruct (Z.eq_dec (attempts_of cfg) attempt) as [E|Hne].
  - assert (todo = O) by lia. subst todo.
    cbn [attempt_loop]. rewrite <- E. unfold cleaned_list in Hclean.
    destruct (backend (attempts_of cfg)) as [|choices]; [discriminate|].
    injection Hclean as ->.
    apply Z.eqb_neq in Hmis. rewrite Hmis, Z.ltb_irrefl. now split.
  - destruct (loop_step target todo attempt) as [E|[Ef [E|[d E]]]];
      cbv zeta in *; rewrite E in Hin |- *; rewrite ?Ef.
    + destruct Hin as [[=]|[]]. congruence.
    + destruct Hin as [[=]|Hin]; [congruence|].
      destruct (IH (attempt + 1)%Z ltac:(lia) Hin) as [H1 H2].
      split; [assumption|]. cbn [requests]. lia.
    + destruct Hin as [[=]|[[=]|Hin]]; [congruence|].
      destruct (IH (attempt + 1)%Z ltac:(lia) Hin) as [H1 H2].
      split; [assumption|]. cbn [requests]. lia.
Qed.

Section Durations.

(** Every delay of the schedule is computed, and accepted by
    [time.sleep]. *)
Hypothesis delays_usable :
  forall k, (1 <= k < attempts_of cfg)%Z ->
            exists d, backoff_delay cfg k = Some d /\ sleep_accepts d = true.

(** When no attempt yields a list of the target length the loop runs to
    its end and the empty list is returned. *)
Lemma loop_no_exact (target : Z) (todo : nat) (attempt : Z) :
  (1 <= attempt)%Z ->
  (attempt + Z.of_nat todo = attempts_of cfg + 1)%Z ->
  (forall k, (attempt <= k <= attempts_of cfg)%Z ->
             exact target (backend k) = false) ->
  fst (loop target todo attempt) = Returned [] /\
  requests (snd (loop target todo attempt)) = todo.
Proof.
  revert attempt. induction todo as [|todo IH]; intros attempt Hpos Hlen Hfail.
  - now split.
  - assert (Hhere := Hfail attempt ltac:(lia)).
    assert (Hnext : fst (loop target todo (attempt + 1)) = Returned [] /\
                    requests (snd (loop target todo (attempt + 1))) = todo).
    { apply IH; [lia|lia|]. intros k Hk. apply Hfail. lia. }
    destruct Hnext as [Hfst Hreq].
    simpl. unfold on_exception.
    unfold exact_length, cleaned_list in Hhere.
    destruct (Z.ltb_spec attempt (attempts_of cfg)) as [Hlt|Hge].
    + destruct (@delays_usable attempt ltac:(lia)) as (d & -> & ->).
      destruct (backend attempt) as [|choices]; [|rewrite Hhere]; simpl;
        now rewrite Hfst, Hreq.
    + destruct (backend attempt) as [|choices]; [|rewrite Hhere]; simpl.
      * split; [reflexivity|]. f_equal. lia.
      * now rewrite Hfst, Hreq.
Qed.

(** When every request raises, the run is the schedule of failed attempts. *)
Lemma loop_all_raise (target : Z) (todo : nat) (attempt : Z) :
  (1 <= attempt)%Z ->
  (attempt + Z.of_nat todo = attempts_of cfg + 1)%Z ->
  (forall k, backend k = Raised) ->
  loop target todo attempt =
  (Returned [],
   backoff_schedule (backoff_initial cfg) (backoff_max cfg) todo attempt).
Proof.
  revert attempt. induction todo as [|todo IH]; intros attempt Hpos Hlen Hraise;
    [reflexivity|].
  cbn [attempt_loop]. rewrite Hraise. unfold on_exception.
  destruct todo as [|todo].
  - destruct (Z.ltb_spec attempt (attempts_of cfg)); [lia|reflexivity].
  - destruct (Z.ltb_spec attempt (attempts_of cfg)); [|lia].
    destruct (@delays_usable attempt ltac:(lia)) as (d & Hd & Hs).
    rewrite Hd, Hs. apply backoff_delay_Some in Hd. subst d.
    rewrite IH by (trivial; lia). reflexivity.
Qed.

(** When no earlier attempt yields a list of the target length, the last
    attempt is made. *)
Lemma loop_reaches_last (target : Z) (todo : nat) (attempt : Z) :
  (1 <= attempt)%Z ->
  todo <> O ->
  (attempt + Z.of_nat todo = attempts_of cfg + 1)%Z ->
  (forall k, (attempt <= k < attempts_of cfg)%Z ->
             exact target (backend k) = false) ->
  In (Request (attempts_of cfg)) (snd (loop target todo attempt)).
Proof.
  revert attempt. induction todo as [|todo IH]; intros attempt Hpos Hne Hlen Hfail;
    [congruence|].
  destruct (Z.eq_dec attempt (attempts_of cfg)) as [E|Hlt].
  - rewrite <- E.
    destruct (loop_step target todo attempt) as [H|[_ [H|[d H]]]];
      cbv zeta in H; rewrite H; now left.
  - assert (Hhere := Hfail attempt ltac:(lia)).
    assert (Hnext : In (Request (attempts_of cfg))
                       (snd (loop target todo (attempt + 1)))).
    { apply IH; [lia|lia|lia|]. intros k Hk. apply Hfail. lia. }
    cbn [attempt_loop]. unfold on_exception.
    unfold exact_length, cleaned_list in Hhere.
    destruct (Z.ltb_spec attempt (attempts_of cfg)) as [_|Hge]; [|lia].
    destruct (@delays_usable attempt ltac:(lia)) as (d & -> & ->).
    destruct (backend attempt) as [|choices]; [|rewrite Hhere]; simpl;
      right; right; exact Hnext.
Qed.

(** With delays that are computed and accepted the loop always returns. *)
Lemma loop_returns (target : Z) (todo : nat) (attempt : Z) :
  (1 <= attempt)%Z ->
  fst (loop target todo attempt) <> Propagated.
Proof.
  revert attempt. induction todo as [|todo IH]; intros attempt Hpos;
    [discriminate|].
  cbn [attempt_loop]. unfold on_exception.
  destruct (Z.ltb_spec attempt (attempts_of cfg)) as [Hlt|Hge].
  - destruct (@delays_usable attempt ltac:(lia)) as (d & -> & ->).
    destruct (backend attempt) as [|choices]; [apply IH; lia|].
    destruct (_ =? target)%Z; [discriminate|apply IH; lia].
  - destruct (backend attempt) as [|choices]; [discriminate|].
    destruct (_ =? target)%Z; [discriminate|apply IH; lia].
Qed.

End Durations.

(** The conditions on the configuration under which every delay of the
    schedule is computed and accepted. *)
Lemma delays_usable_of :
  (retries cfg <= 1025)%Z ->
  (forall k, (1 <= k < retries cfg)%Z ->
     sleep_accepts (Qmin (backoff_initial cfg * inject_Z (2 ^ (k - 1)))
                         (backoff_max cfg)) = true) ->
  forall k, (1 <= k < attempts_of cfg)%Z ->
            exists d, backoff_delay cfg k = Some d /\ sleep_accepts d = true.
Proof.
  intros Hr Hs k Hk. unfold attempts_of in Hk.
  rewrite backoff_delay_computed by lia. eexists. split; [reflexivity|].
  apply Hs. lia.
Qed.

Lemma attempts_of_nat : Z.of_nat (Z.to_nat (attempts_of cfg)) = attempts_of cfg.
Proof. unfold attempts_of. lia. Qed.

(** C1, amended. When the final attempt, the one numbered
    [max(1, retries)], is made and yields a cleaned list whose length is
    not the target, the call returns the empty list, not that list and not
    an error, after all its attempts; a list of exactly the target length
    is returned by the attempt that yields it, and no further request is
    sent. The final attempt is made when the mood is valid, no earlier
    attempt yields a list of the target length, the retries are at most
    1025 and [time.sleep] accepts the delays. *)
Theorem final_mismatch_returns_empty (mood : str) (language : option str)
        (count : option Z) :
  let target := target_count_of cfg count in
  let attempts := attempts_of cfg in
  (forall partial,
      In (Request attempts) (snd (run mood language count)) ->
      cleaned target (backend attempts) = Some partial ->
      Z.of_nat (length partial) <> target ->
      fst (run mood language count) = Returned [] /\
      requests (snd (run mood language count)) = Z.to_nat attempts) /\
  (forall k artists,
      In (Request k) (snd (run mood language count)) ->
      cleaned target (backend k) = Some artists ->
      Z.of_nat (length artists) = target ->
      fst (run mood language count) = Returned artists /\
      Z.of_nat (requests (snd (run mood language count))) = k) /\
  (strip mood <> [] ->
   (retries cfg <= 1025)%Z ->
   (forall k, (1 <= k < retries cfg)%Z ->
      sleep_accepts (Qmin (backoff_initial cfg * inject_Z (2 ^ (k - 1)))
                          (backoff_max cfg)) = true) ->
   (forall k, (1 <= k < attempts)%Z -> exact target (backend k) = false) ->
   In (Request attempts) (snd (run mood language count))).
Proof.
  intros target attempts. subst target attempts. unfold get_artists.
  destruct (strip mood) as [|c m]; cbv zeta.
  - split; [intros partial []|]. split; [intros k artists []|congruence].
  - split; [|split].
    + intros partial Hin Hclean Hlen.
      apply (@loop_final_mismatch _ _ 1 partial); trivial.
      rewrite attempts_of_nat. lia.
    + intros k artists Hin Hclean Hlen.
      destruct (@loop_exact_attempt _ _ 1 k artists Hin Hclean Hlen)
        as [Hfst Hreq].
      split; [assumption|]. rewrite Hreq. lia.
    + intros _ Hr Hs Hfail.
      apply loop_reaches_last; trivial;
        [now apply delays_usable_of|lia|unfold attempts_of; lia|
         rewrite attempts_of_nat; lia].
Qed.

(** C2. A list returned by [get_artists] that is not empty has exactly
    the target length. *)
Theorem nonempty_result_has_target_length (mood : str) (language : option str)
        (count : option Z) (artists : list str) :
  fst (run mood language count) = Returned artists ->
  artists <> [] ->
  Z.of_nat (length artists) = target_count_of cfg count.
Proof.
  unfold get_artists. destruct (strip mood) as [|c m].
  - intros [= <-]. congruence.
  - cbv zeta. intros H Hne.
    destruct (loop_returns_exact_or_empty _ _ _ H); [contradiction|assumption].
Qed.


(** C6. A mood that is empty or made of white space only gives the empty
    list at once: no request is sent and nothing else happens. *)
Theorem blank_mood_returns_empty (mood : str) (language : option str)
        (count : option Z) :
  forallb isspace mood = true ->
  run mood language count = (Returned [], []) /\
  requests (snd (run mood language count)) = 0%nat.
Proof.
  intros H. apply strip_nil in H. unfold get_artists. rewrite H. now split.
Qed.

(** C9. A count of zero or [None] is replaced by [enforce_count], ten by
    default, so that the call is the one with that count; the target is
    zero only when [enforce_count] itself is. *)
Theorem falsy_count_uses_enforce_count (mood : str) (language : option str) :
  target_count_of cfg None = enforce_count cfg /\
  target_count_of cfg (Some 0%Z) = enforce_count cfg /\
  run mood language None = run mood language (Some (enforce_count cfg)) /\
  run mood language (Some 0%Z) = run mood language (Some (enforce_count cfg)) /\
  (forall key, enforce_count (default_config key) = 10%Z) /\
  (forall count, target_count_of cfg count = 0%Z -> enforce_count cfg = 0%Z) /\
  (forall key count, target_count_of (default_config key) count <> 0%Z).
Proof.
  assert (E : target_count_of cfg (Some (enforce_count cfg)) = enforce_count cfg).
  { unfold target_count_of. now destruct (Z.eqb_spec (enforce_count cfg) 0). }
  repeat split; trivial.
  - unfold get_artists. destruct (strip mood); [reflexivity|]. now rewrite E.
  - unfold get_artists. destruct (strip mood); [reflexivity|]. now rewrite E.
  - intros [c|]; simpl; [|trivial].
    destruct (Z.eqb_spec c 0); [trivial|contradiction].
  - intros key [c|]; simpl; [|discriminate].
    destruct (Z.eqb_spec c 0); [discriminate|assumption].
Qed.

(** C10, amended. A call with a mood that is not blank sends at least one
    request and at most [max(1, retries)]; it sends all of them when no
    attempt yields a list of the target length, the retries are at most
    1025 and [time.sleep] accepts the delays; with a number of retries of
    zero or less it sends exactly one and is the call of the configuration
    with one retry. *)
Theorem at_least_one_attempt (mood : str) (language : option str)
        (count : option Z) :
  strip mood <> [] ->
  attempts_of cfg = Z.max 1 (retries cfg) /\
  (1 <= requests (snd (run mood language count))
   <= Z.to_nat (Z.max 1 (retries cfg)))%nat /\
  ((retries cfg <= 1025)%Z ->
   (forall k, (1 <= k < retries cfg)%Z ->
      sleep_accepts (Qmin (backoff_initial cfg * inject_Z (2 ^ (k - 1)))
                          (backoff_max cfg)) = true) ->
   (forall k, exact (target_count_of cfg count) (backend k) = false) ->
   requests (snd (run mood language count)) = Z.to_nat (Z.max 1 (retries cfg))) /\
  ((retries cfg <= 0)%Z ->
   requests (snd (run mood language count)) = 1%nat /\
   run mood language count =
   get_artists lower casefold sleep_accepts (with_retries 1 cfg) backend
               mood language count).
Proof.
  intros Hmood. split; [reflexivity|].
  assert (Hreq : (1 <= requests (snd (run mood language count))
                  <= Z.to_nat (Z.max 1 (retries cfg)))%nat).
  { unfold get_artists. destruct (strip mood) as [|c m]; [congruence|].
    cbv zeta. fold (attempts_of cfg).
    destruct (loop_requests (target_count_of cfg count)
                            (Z.to_nat (attempts_of cfg)) 1) as [Hle Hge].
    split; [|exact Hle]. apply Hge. unfold attempts_of. lia. }
  split; [exact Hreq|]. split.
  - intros Hr Hs Hfail. unfold get_artists.
    destruct (strip mood) as [|c m]; [congruence|]. cbv zeta.
    apply loop_no_exact; trivial; [|lia|unfold attempts_of; lia].
    now apply delays_usable_of.
  - intros Hretries. split.
    + replace (Z.max 1 (retries cfg)) with 1%Z in Hreq by lia.
      change (Z.to_nat 1) with 1%nat in Hreq. lia.
    + unfold get_artists. destruct (strip mood) as [|c m]; [congruence|].
      cbv zeta.
      assert (E : attempts_of cfg = 1%Z) by (unfold attempts_of; lia).
      assert (E' : attempts_of (with_retries 1 cfg) = 1%Z) by reflexivity.
      rewrite E, E'. change (Z.to_nat 1) with 1%nat.
      cbn [attempt_loop]. unfold on_exception. rewrite E, E'. reflexivity.
Qed.

End ServiceFacts.

(* ================================================================== *)
(** * The claims at sample inputs *)
(* ================================================================== *)

Import Samples.

Lemma happy_is_valid : strip happy <> [].
Proof. vm_compute. discriminate. Defined.

(** The delays of the default settings are durations of a few seconds. *)
Lemma default_delays_accepted (k : str) (retries' : Z) (attempt : Z) :
  MoreSamples.clock_sleep
    (Qmin (backoff_initial (with_retries retries' (default_config k))
           * inject_Z (2 ^ (attempt - 1)))
          (backoff_max (with_retries retries' (default_config k)))) = true.
Proof.
  unfold MoreSamples.clock_sleep. cbn [backoff_initial backoff_max with_retries
                                       default_config].
  apply andb_true_iff. split; apply Qle_bool_iff.
  - apply Q.min_glb; [|discriminate].
    apply Qmult_le_0_compat; [discriminate|].
    change 0 with (inject_Z 0). rewrite <- Zle_Qle. apply Z.pow_nonneg. lia.
  - eapply Qle_trans; [apply Q.le_min_r|]. vm_compute. discriminate.
Defined.

(** C1 as stated fails: with one attempt and a target of two, an answer of
    one name yields the list of that name, of length one, and the call
    returns the empty list, not that list. *)
Lemma final_partial_list_is_dropped :
  cleaned_list ascii_lower ascii_lower 2 (always_answers Adele 1) = Some [Adele] /\
  Z.of_nat (length [Adele]) <> 2%Z /\
  attempts_of one_try = 1%Z /\
  fst (get_artists ascii_lower ascii_lower MoreSamples.clock_sleep one_try
                   (always_answers Adele) happy None (Some 2%Z)) = Returned [] /\
  fst (get_artists ascii_lower ascii_lower MoreSamples.clock_sleep one_try
                   (always_answers Adele) happy None (Some 2%Z))
  <> Returned [Adele].
Proof.
  repeat split; try reflexivity; vm_compute; discriminate.
Qed.

Lemma final_mismatch_returns_empty_witness :
  (fst (get_artists ascii_lower ascii_lower MoreSamples.clock_sleep
                    (default_config key) (always_answers Adele) happy None
                    (Some 2%Z)) = Returned [] /\
   requests (snd (get_artists ascii_lower ascii_lower MoreSamples.clock_sleep
                    (default_config key) (always_answers Adele) happy None
                    (Some 2%Z))) = 3%nat) /\
  (fst (get_artists ascii_lower ascii_lower MoreSamples.clock_sleep
                    (default_config key) (always_answers two_names) happy None
                    (Some 2%Z))
     = Returned [Adele; Drake] /\
   Z.of_nat (requests (snd (get_artists ascii_lower ascii_lower
                    MoreSamples.clock_sleep (default_config key)
                    (always_answers two_names) happy None (Some 2%Z)))) = 1%Z).
Proof.
  split.
  - apply (proj1 (@final_mismatch_returns_empty ascii_lower ascii_lower
                    MoreSamples.clock_sleep (default_config key)
                    (always_answers Adele) happy None (Some 2%Z)) [Adele]).
    + vm_compute. tauto.
    + reflexivity.
    + vm_compute. discriminate.
  - apply (proj1 (proj2 (@final_mismatch_returns_empty ascii_lower ascii_lower
                    MoreSamples.clock_sleep (default_config key)
                    (always_answers two_names) happy None (Some 2%Z)))
                 1%Z [Adele; Drake]).
    + vm_compute. tauto.
    + reflexivity.
    + reflexivity.
Defined.

Lemma nonempty_result_has_target_length_witness :
  fst (get_artists ascii_lower ascii_lower MoreSamples.clock_sleep
                   (default_config key) (always_answers two_names) happy None
                   (Some 2%Z))
    = Returned [Adele; Drake] /\
  Z.of_nat (length [Adele; Drake]) = target_count_of (default_config key) (Some 2%Z).
Proof.
  split; [reflexivity|].
  apply (@nonempty_result_has_target_length ascii_lower ascii_lower
           MoreSamples.clock_sleep (default_config key)
           (always_answers two_names) happy None (Some 2%Z)).
  - reflexivity.
  - discriminate.
Defined.



Lemma blank_mood_returns_empty_witness :
  forallb isspace blank_mood = true /\
  get_artists ascii_lower ascii_lower MoreSamples.clock_sleep
              (default_config key) (always_answers two_names) blank_mood None
              (Some 2%Z)
  = (Returned [], []).
Proof.
  split; [reflexivity|].
  apply (@blank_mood_returns_empty ascii_lower ascii_lower
           MoreSamples.clock_sleep (default_config key)
           (always_answers two_names) blank_mood None (Some 2%Z)).
  reflexivity.
Defined.

(** C10 as stated fails: a call with a blank mood sends no request. *)
Lemma blank_mood_makes_no_attempt :
  requests (snd (get_artists ascii_lower ascii_lower MoreSamples.clock_sleep
                             (default_config key) (always_answers two_names)
                             blank_mood None None)) = 0%nat /\
  ~ (1 <= requests (snd (get_artists ascii_lower ascii_lower
                             MoreSamples.clock_sleep (default_config key)
                             (always_answers two_names) blank_mood None None)))%nat.
Proof.
  split; [reflexivity|]. vm_compute. lia.
Qed.

Lemma at_least_one_attempt_witness :
  ((retries no_try <= 0)%Z /\
   requests (snd (get_artists ascii_lower ascii_lower MoreSamples.clock_sleep
                              no_try always_raises happy None None)) = 1%nat) /\
  requests (snd (get_artists ascii_lower ascii_lower MoreSamples.clock_sleep
                             (default_config key) (always_answers Adele) happy
                             None (Some 2%Z)))
  = 3%nat.
Proof.
  split; [split; [simpl; lia|]|].
  - apply (@at_least_one_attempt ascii_lower ascii_lower MoreSamples.clock_sleep
             no_try always_raises happy None None).
    + exact happy_is_valid.
    + simpl. lia.
  - apply (@at_least_one_attempt ascii_lower ascii_lower MoreSamples.clock_sleep
             (default_config key) (always_answers Adele) happy None (Some 2%Z)).
    + exact happy_is_valid.
    + simpl. lia.
    + intros k _. apply (default_delays_accepted key 3 k).
    + intros k. reflexivity.
Defined.

(** A delay that [time.sleep] refuses: the [ValueError] is raised in the
    handler of the first failed attempt and escapes the call. *)
Example negative_delay_escapes :
  get_artists ascii_lower ascii_lower MoreSamples.clock_sleep negative_backoff
              always_raises happy None None
  = (Propagated, [Request 1]).
Proof. reflexivity. Qed.

(* ================================================================== *)
(** * Further properties of the strings *)
(* ================================================================== *)

Lemma drop_while_suffix (p : char -> bool) (s : str) :
  exists front, s = front ++ drop_while p s.
Proof.
  induction s as [|c s [front IH]]; simpl.
  - now exists [].
  - destruct (p c).
    + exists (c :: front). simpl. now f_equal.
    + now exists [].
Qed.

Lemma drop_while_fixed (p : char -> bool) (s r : str) (c : char) :
  p c = false -> drop_while p (c :: r) = c :: r.
Proof. intros H. simpl. now rewrite H. Qed.

Lemma drop_while_idem (p : char -> bool) (s : str) :
  drop_while p (drop_while p s) = drop_while p s.
Proof.
  destruct (drop_while p s) as [|c r] eqn:E; [reflexivity|].
  apply drop_while_head in E. now apply drop_while_fixed.
Qed.

(** Stripping a stripped string changes nothing. *)
Lemma strip_idem (s : str) : strip (strip s) = strip s.
Proof.
  unfold strip, rstrip, lstrip.
  set (t := drop_while isspace s).
  set (u := rev (drop_while isspace (rev t))).
  assert (Hu : drop_while isspace u = u).
  { destruct u as [|c u'] eqn:Eu; [reflexivity|].
    destruct (drop_while_suffix isspace (rev t)) as [front Hf].
    apply (f_equal (@rev char)) in Hf.
    rewrite rev_involutive, rev_app_distr in Hf. fold u in Hf.
    rewrite Eu in Hf. simpl in Hf.
    apply drop_while_fixed; [exact []|].
    apply (@drop_while_head isspace s (u' ++ rev front) c). exact Hf. }
  rewrite Hu. unfold u. rewrite rev_involutive, drop_while_idem. reflexivity.
Qed.

(** A stripped string that is not empty starts with a character that is
    not white space, and ends with one. *)
Lemma stripped_head (s : str) :
  strip s = s -> s <> [] -> exists c r, s = c :: r /\ isspace c = false.
Proof.
  intros Hs Hne. destruct s as [|c r]; [congruence|].
  exists c, r. split; [reflexivity|].
  destruct (isspace c) eqn:Hc; [|reflexivity]. exfalso.
  unfold strip, rstrip, lstrip in Hs.
  destruct (drop_while_suffix isspace (rev (drop_while isspace (c :: r))))
    as [front Hf].
  apply (f_equal (@rev char)) in Hf.
  rewrite rev_involutive, rev_app_distr, Hs in Hf.
  destruct (drop_while isspace (c :: r)) as [|d t] eqn:Ed.
  - destruct front; discriminate.
  - injection Hf as <- _. apply drop_while_head in Ed. congruence.
Qed.

Lemma stripped_last (s : str) :
  strip s = s -> s <> [] -> exists c r, s = r ++ [c] /\ isspace c = false.
Proof.
  intros Hs Hne. unfold strip, rstrip in Hs.
  destruct (drop_while isspace (rev (lstrip s))) as [|c r] eqn:E.
  - simpl in Hs. congruence.
  - exists c, (rev r). split; [now rewrite <- Hs|].
    now apply drop_while_head in E.
Qed.

Lemma lstrip_fixed (c : char) (r : str) :
  isspace c = false -> lstrip (c :: r) = c :: r.
Proof. intros H. unfold lstrip. simpl. now rewrite H. Qed.

Lemma rstrip_fixed (c : char) (r : str) :
  isspace c = false -> rstrip (r ++ [c]) = r ++ [c].
Proof.
  intros H. unfold rstrip. rewrite rev_app_distr. simpl. rewrite H.
  simpl. now rewrite rev_involutive.
Qed.

(** The characters of a stripped string are characters of the string. *)
Lemma drop_while_Forall (P : char -> Prop) (p : char -> bool) (s : str) :
  Forall P s -> Forall P (drop_while p s).
Proof.
  intros H. destruct (drop_while_suffix p s) as [front E].
  rewrite E in H. now apply Forall_app in H.
Qed.

Lemma strip_Forall (P : char -> Prop) (s : str) :
  Forall P s -> Forall P (strip s).
Proof.
  intros H. unfold strip, rstrip, lstrip.
  apply Forall_rev, drop_while_Forall, Forall_rev, drop_while_Forall, H.
Qed.

Lemma skipn_Forall (A : Type) (P : A -> Prop) (n : nat) (l : list A) :
  Forall P l -> Forall P (skipn n l).
Proof.
  intros H. rewrite <- (firstn_skipn n l) in H. now apply Forall_app in H.
Qed.

(* ================================================================== *)
(** * Further properties of the parser *)
(* ================================================================== *)

Lemma firstn_all_of (A : Type) (k : nat) (l : list A) :
  (length l <= k)%nat -> firstn k l = l.
Proof.
  revert k. induction l as [|x l IH]; intros k H.
  - apply firstn_nil.
  - destruct k; simpl in *; [lia|]. f_equal. apply IH. lia.
Qed.

Section ParserMore.

Variable lower : str -> str.
Variable casefold : str -> str.

Local Abbreviation collect := (collect lower casefold).
Local Abbreviation parse := (_parse_artists lower casefold).

(** The loop stops as soon as the target is reached. *)
Lemma collect_length (n : Z) (lines seen cleaned : list str) :
  (Z.of_nat (length cleaned) < Z.max n 1)%Z ->
  (Z.of_nat (length (collect n lines seen cleaned)) <= Z.max n 1)%Z.
Proof.
  revert seen cleaned. induction lines as [|line rest IH];
    intros seen cleaned Hlen; simpl; [lia|].
  destruct (is_preamble lower (clean_item line)); [now apply IH|].
  destruct (negb (has_letter (clean_item line))); [now apply IH|].
  destruct (existsb _ seen); [now apply IH|].
  destruct (Z.geb_spec (Z.of_nat (length (cleaned ++ [clean_item line]))) n)
    as [Hge|Hlt].
  - rewrite length_app in *. simpl in *. lia.
  - apply IH. lia.
Qed.

(** X1. The parser never returns more names than the target, and none at
    all for a target of zero or less. *)
Theorem parse_length_bound (raw : option str) (n : Z) :
  (Z.of_nat (length (parse raw n)) <= Z.max 0 n)%Z.
Proof.
  unfold _parse_artists. destruct raw as [[|c raw]|]; simpl length; try lia.
  set (cleaned := collect n (candidate_lines (c :: raw)) [] []).
  assert (H : (Z.of_nat (length cleaned) <= Z.max n 1)%Z).
  { apply collect_length. simpl. lia. }
  destruct (Z.gtb_spec (Z.of_nat (length cleaned)) n) as [Hgt|Hle]; [|lia].
  unfold slice_to. destruct (Z.leb_spec 0 n) as [Hn|Hn].
  - rewrite length_firstn. lia.
  - rewrite length_firstn. lia.
Qed.

(** What the loop keeps passed its tests and is a stripped string. *)
Lemma collect_items (n : Z) (lines seen cleaned : list str) :
  Forall (fun item => has_letter item = true /\ strip item = item) cleaned ->
  Forall (fun item => has_letter item = true /\ strip item = item)
         (collect n lines seen cleaned).
Proof.
  revert seen cleaned. induction lines as [|line rest IH];
    intros seen cleaned Hc; simpl; [assumption|].
  destruct (is_preamble lower (clean_item line)); [now apply IH|].
  destruct (has_letter (clean_item line)) eqn:Hl; simpl; [|now apply IH].
  destruct (existsb _ seen); [now apply IH|].
  assert (Hnew : Forall (fun item => has_letter item = true /\ strip item = item)
                        (cleaned ++ [clean_item line])).
  { apply Forall_app. split; [assumption|]. constructor; [|constructor].
    split; [assumption|]. unfold clean_item. apply strip_idem. }
  destruct (_ >=? n)%Z; [assumption|]. now apply IH.
Qed.

(** X2. Every name the parser returns holds a letter of the accepted
    scripts, so is not empty, and has no white space at either end. *)
Theorem parse_names_well_formed (raw : option str) (n : Z) :
  Forall (fun name => has_letter name = true /\ name <> [] /\ strip name = name)
         (parse raw n).
Proof.
  destruct raw as [raw|]; [|constructor].
  destruct (_parse_artists_prefix lower casefold raw n) as (k & ->).
  assert (H := @collect_items n (candidate_lines raw) [] [] (Forall_nil _)).
  rewrite Forall_forall in *. intros name Hname.
  assert (Hin : In name (collect n (candidate_lines raw) [] [])).
  { rewrite <- (firstn_skipn k). apply in_or_app. now left. }
  destruct (H _ Hin) as [Hl Hs]. repeat split; trivial.
  intros ->. discriminate.
Qed.

(** With a smaller target the loop stops earlier, on the same names. *)
Lemma collect_prefix (n m : Z) (lines seen cleaned : list str) :
  (Z.of_nat (length cleaned) < n <= m)%Z ->
  collect n lines seen cleaned =
  firstn (Z.to_nat n) (collect m lines seen cleaned).
Proof.
  revert seen cleaned. induction lines as [|line rest IH];
    intros seen cleaned Hlen; simpl.
  - symmetry. apply firstn_all_of. lia.
  - destruct (is_preamble lower (clean_item line)); [now apply IH|].
    destruct (negb (has_letter (clean_item line))); [now apply IH|].
    destruct (existsb _ seen); [now apply IH|].
    set (cleaned' := cleaned ++ [clean_item line]).
    assert (Hl : length cleaned' = S (length cleaned)).
    { unfold cleaned'. rewrite length_app. simpl. lia. }
    destruct (Z.geb_spec (Z.of_nat (length cleaned')) n) as [Hn|Hn].
    + assert (Hk : Z.to_nat n = length cleaned') by lia.
      destruct (Z.geb_spec (Z.of_nat (length cleaned')) m) as [Hm|Hm].
      * symmetry. apply firstn_all_of. lia.
      * destruct (collect_extends lower casefold m rest
                    (casefold (clean_item line) :: seen) cleaned')
          as (added & -> & _).
        rewrite Hk, firstn_app, Nat.sub_diag, firstn_all. simpl.
        now rewrite app_nil_r.
    + destruct (Z.geb_spec (Z.of_nat (length cleaned')) m) as [Hm|Hm]; [lia|].
      apply IH. lia.
Qed.

(** X3. Asking for fewer names gives the first names of what a greater
    target gives. *)
Theorem parse_smaller_target_prefix (raw : option str) (n m : Z) :
  (1 <= n <= m)%Z ->
  parse raw n = firstn (Z.to_nat n) (parse raw m).
Proof.
  intros Hnm. unfold _parse_artists.
  destruct raw as [[|c raw]|]; try (now rewrite firstn_nil).
  set (lines := candidate_lines (c :: raw)).
  assert (Hn : (Z.of_nat (length (collect n lines [] [])) <= Z.max n 1)%Z)
    by (apply collect_length; simpl; lia).
  assert (Hm : (Z.of_nat (length (collect m lines [] [])) <= Z.max m 1)%Z)
    by (apply collect_length; simpl; lia).
  destruct (Z.gtb_spec (Z.of_nat (length (collect n lines [] []))) n); [lia|].
  destruct (Z.gtb_spec (Z.of_nat (length (collect m lines [] []))) m); [lia|].
  apply collect_prefix. simpl. lia.
Qed.

(** When the loop ends below the target it has gone through every line:
    the key of each line that passes the tests is among the keys met. *)
Lemma collect_complete (n : Z) (lines seen cleaned : list str) :
  (Z.of_nat (length (collect n lines seen cleaned)) < n)%Z ->
  Forall (fun line =>
            is_preamble lower (clean_item line) = false ->
            has_letter (clean_item line) = true ->
            In (casefold (clean_item line))
               (seen ++ map casefold (collect n lines seen cleaned)))
         lines.
Proof.
  revert seen cleaned. induction lines as [|line rest IH];
    intros seen cleaned Hlen; [constructor|].
  simpl in Hlen |- *.
  destruct (is_preamble lower (clean_item line)) eqn:Hp.
  { constructor; [congruence|now apply IH]. }
  destruct (has_letter (clean_item line)) eqn:Hl; simpl in *.
  2:{ constructor; [congruence|now apply IH]. }
  destruct (existsb _ seen) eqn:Hseen.
  { constructor; [|now apply IH].
    intros _ _. apply in_or_app. left. now apply existsb_str_eqb. }
  destruct (Z.geb_spec (Z.of_nat (length (cleaned ++ [clean_item line]))) n)
    as [Hge|Hlt]; [lia|].
  destruct (collect_extends lower casefold n rest
              (casefold (clean_item line) :: seen)
              (cleaned ++ [clean_item line])) as (added & E & _).
  assert (Hkey : In (casefold (clean_item line))
    (map casefold (collect n rest (casefold (clean_item line) :: seen)
                           (cleaned ++ [clean_item line])))).
  { rewrite E, !map_app. apply in_or_app. left. apply in_or_app. right.
    now left. }
  constructor.
  - intros _ _. apply in_or_app. now right.
  - specialize (IH _ _ Hlen). rewrite Forall_forall in *.
    intros l Hin Hp' Hl'. specialize (IH l Hin Hp' Hl').
    apply in_app_or in IH. apply in_or_app.
    destruct IH as [[<-|IH]|IH]; [now right|now left|now right].
Qed.

(** X4. When the parser returns fewer names than the target, no usable
    line was lost: every candidate line that holds a letter and no
    preamble marker has its case-folded text among those of the names. *)
Theorem parse_short_result_complete (raw : str) (n : Z) :
  (Z.of_nat (length (parse (Some raw) n)) < n)%Z ->
  Forall (fun line =>
            is_preamble lower (clean_item line) = false ->
            has_letter (clean_item line) = true ->
            In (casefold (clean_item line))
               (map casefold (parse (Some raw) n)))
         (candidate_lines raw).
Proof.
  unfold _parse_artists. destruct raw as [|c raw].
  - intros _. vm_compute. constructor.
  - set (lines := candidate_lines (c :: raw)).
    destruct (Z.gtb_spec (Z.of_nat (length (collect n lines [] []))) n)
      as [Hgt|Hle].
    + intros H.
      assert (Hc : (Z.of_nat (length (collect n lines [] [])) <= Z.max n 1)%Z)
        by (apply collect_length; simpl; lia).
      lia.
    + intros H. exact (collect_complete _ _ _ H).
Qed.

End ParserMore.

(* ================================================================== *)
(** * Lines, separators and fences *)
(* ================================================================== *)

Import GroqEntry Answers.

Lemma cons_head_Forall (P : char -> Prop) (c : char) (parts : list str) :
  P c -> Forall (Forall P) parts -> Forall (Forall P) (cons_head c parts).
Proof.
  intros Hc Hp. destruct parts as [|h t]; simpl.
  - repeat constructor. exact Hc.
  - inversion Hp; subst. constructor; [now constructor|assumption].
Qed.

(** The pieces of a split are made of characters of the string. *)
Lemma split_from_Forall (P : char -> Prop) (sep : str) (skip : nat) (s : str) :
  Forall P s -> Forall (Forall P) (split_from sep skip s).
Proof.
  intros H. revert skip. induction H as [|c s Hc Hs IH]; intros skip; simpl.
  - repeat constructor.
  - destruct skip as [|k]; [|apply IH].
    destruct (startswith sep (c :: s)).
    + constructor; [constructor|apply IH].
    + now apply cons_head_Forall.
Qed.

(** The pieces of a split at one character do not hold that character. *)
Lemma split_char_pieces (c : char) (s : str) :
  Forall (Forall (fun x => x <> c)) (split [c] s).
Proof.
  unfold split. induction s as [|d s IH]; simpl.
  - repeat constructor.
  - destruct (N.eqb_spec c d) as [->|Hne]; simpl.
    + constructor; [constructor|exact IH].
    + apply cons_head_Forall; [congruence|exact IH].
Qed.

Lemma split_char_none (c : char) (s : str) :
  Forall (fun x => x <> c) s -> split [c] s = [s].
Proof.
  unfold split. induction 1 as [|d s Hd Hs IH]; simpl; [reflexivity|].
  destruct (N.eqb_spec c d) as [->|Hne]; [congruence|]. simpl.
  now rewrite IH.
Qed.

Lemma split_char_app (c : char) (piece rest : str) :
  Forall (fun x => x <> c) piece ->
  split [c] (piece ++ c :: rest) = piece :: split [c] rest.
Proof.
  unfold split. induction 1 as [|d s Hd Hs IH]; simpl.
  - now rewrite N.eqb_refl.
  - destruct (N.eqb_spec c d) as [->|Hne]; [congruence|]. simpl.
    now rewrite IH.
Qed.

(** Joining with a character and splitting at it gives the parts back,
    when no part holds the character. *)
Lemma split_join (c : char) (parts : list str) :
  parts <> [] -> Forall (Forall (fun x => x <> c)) parts ->
  split [c] (join [c] parts) = parts.
Proof.
  intros Hne H. revert Hne.
  induction H as [|p rest Hp Hrest IH]; intros Hne; [now elim Hne|].
  destruct rest as [|q rest].
  - simpl. now apply split_char_none.
  - change (join [c] (p :: q :: rest)) with (p ++ c :: join [c] (q :: rest)).
    rewrite split_char_app by assumption. f_equal. apply IH. discriminate.
Qed.

(** A separator at the end of a joined text is an empty last part. *)
Lemma join_snoc_empty (sep : str) (parts : list str) :
  parts <> [] -> join sep (parts ++ [[]]) = join sep parts ++ sep.
Proof.
  induction parts as [|p rest IH]; intros Hne; [now elim Hne|].
  destruct rest as [|q rest].
  - simpl. now rewrite app_nil_r.
  - change (join sep ((p :: q :: rest) ++ [[]]))
      with (p ++ sep ++ join sep ((q :: rest) ++ [[]])).
    rewrite IH by discriminate.
    change (join sep (p :: q :: rest)) with (p ++ sep ++ join sep (q :: rest)).
    now rewrite <- !app_assoc.
Qed.

Lemma join_Forall (P : char -> Prop) (sep : str) (parts : list str) :
  Forall P sep -> Forall (Forall P) parts -> Forall P (join sep parts).
Proof.
  intros Hsep H. induction H as [|p rest Hp Hrest IH]; [constructor|].
  destruct rest as [|q rest]; [exact Hp|].
  change (join sep (p :: q :: rest)) with (p ++ sep ++ join sep (q :: rest)).
  apply Forall_app. split; [assumption|]. apply Forall_app. now split.
Qed.

Lemma join_head (sep : str) (c : char) (r : str) (rest : list str) :
  exists tail, join sep ((c :: r) :: rest) = c :: tail.
Proof. destruct rest; simpl; eexists; reflexivity. Qed.

Lemma join_last (sep : str) (init : list str) (z : str) :
  exists front, join sep (init ++ [z]) = front ++ z.
Proof.
  induction init as [|p init [front IH]].
  - now exists [].
  - destruct init as [|q init].
    + exists (p ++ sep). simpl. now rewrite <- app_assoc.
    + exists (p ++ sep ++ front).
      change (join sep ((p :: q :: init) ++ [z]))
        with (p ++ sep ++ join sep ((q :: init) ++ [z])).
      rewrite IH, <- !app_assoc. reflexivity.
Qed.

Lemma remove_char_absent (c : char) (s : str) :
  Forall (fun x => x <> c) s -> remove_char c s = s.
Proof.
  unfold remove_char. induction 1 as [|d s Hd Hs IH]; simpl; [reflexivity|].
  destruct (N.eqb_spec d c); [congruence|]. simpl. now rewrite IH.
Qed.

Lemma remove_char_Forall (c : char) (s : str) :
  Forall (fun x => x <> c) (remove_char c s).
Proof.
  unfold remove_char. apply Forall_forall. intros x Hx.
  apply filter_In in Hx. destruct Hx as [_ Hx].
  apply negb_true_iff in Hx. now apply N.eqb_neq.
Qed.

Lemma startswith_fence_false (s : str) :
  Forall (fun x => x <> backtick) s -> startswith fence s = false.
Proof.
  intros H. destruct H as [|c s Hc _]; [reflexivity|].
  unfold fence. cbn [startswith].
  assert (E : (backtick =? c)%N = false) by (apply N.eqb_neq; congruence).
  now rewrite E.
Qed.

(** Where no backtick is left to read, the scan finds no fence. *)
Lemma strip_fences_from_plain (bol : bool) (text : str) :
  Forall (fun x => x <> backtick) text -> strip_fences_from bol 0 text = text.
Proof.
  intros H. revert bol.
  induction H as [|c s Hc Hs IH]; intros bol; simpl; [reflexivity|].
  assert (Hm : fence_match bol (c :: s) = None).
  { unfold fence_match, open_fence_len, close_fence_len.
    rewrite (@startswith_fence_false (c :: s)) by now constructor.
    rewrite (@startswith_fence_false (skipn _ (c :: s)))
      by (apply skipn_Forall; now constructor).
    now destruct bol. }
  rewrite Hm. now rewrite IH.
Qed.

(** X5. The removal of the fences leaves a text without backtick as it
    is, and the candidate lines of a stripped text without backtick are
    its own lines. *)
Theorem strip_fences_without_backtick (text : str) :
  Forall (fun x => x <> backtick) text ->
  strip_fences text = text /\
  (strip text = text -> candidate_lines text = resplit (nonblank_lines text)).
Proof.
  intros H. unfold candidate_lines, strip_fences. split.
  - now apply strip_fences_from_plain.
  - intros ->. now rewrite strip_fences_from_plain.
Qed.

Lemma subsequence_In (A : Type) (s l : list A) (x : A) :
  subsequence s l -> In x s -> In x l.
Proof.
  induction 1 as [l|y s l _ IH|y s l _ IH]; simpl; [tauto| |]; intuition.
Qed.

Lemma strip_marker_Forall (P : char -> Prop) (line : str) :
  Forall P line -> Forall P (strip_marker line).
Proof.
  intros H. unfold strip_marker.
  assert (Hl : Forall P (lstrip line)) by now apply drop_while_Forall.
  destruct (lstrip line) as [|c r1]; [assumption|].
  inversion Hl as [|? ? _ H1]; subst.
  destruct (is_list_marker c); [now apply drop_while_Forall|].
  destruct (is_digit c); [|assumption].
  destruct r1 as [|d r2]; [assumption|].
  inversion H1 as [|? ? _ H2]; subst.
  destruct (is_digit d).
  - destruct r2 as [|p r3]; [assumption|].
    inversion H2 as [|? ? _ H3]; subst.
    destruct (is_dot_or_paren p); [now apply drop_while_Forall|assumption].
  - destruct (is_dot_or_paren d); [now apply drop_while_Forall|assumption].
Qed.

Lemma strip_quotes_Forall (P : char -> Prop) (item : str) :
  Forall P item -> Forall P (strip_quotes item).
Proof.
  intros H. unfold strip_quotes.
  assert (H1 : Forall P (rev (drop_while is_quote item)))
    by now apply Forall_rev, drop_while_Forall.
  destruct (rev (drop_while is_quote item)) as [|c r]; [constructor|].
  destruct (N.eqb_spec c LF) as [->|_].
  - inversion H1; subst. apply Forall_app. split.
    + now apply Forall_rev, drop_while_Forall.
    + now repeat constructor.
  - now apply Forall_rev, drop_while_Forall.
Qed.

(** The cleaning of a line only removes characters. *)
Lemma clean_item_Forall (P : char -> Prop) (line : str) :
  Forall P line -> Forall P (clean_item line).
Proof.
  intros H. unfold clean_item.
  now apply strip_Forall, strip_quotes_Forall, strip_Forall, strip_marker_Forall.
Qed.

(** No candidate line holds a newline or a carriage return. *)
Lemma candidate_lines_one_line (raw : str) :
  Forall (Forall (fun x => x <> LF /\ x <> CR)) (candidate_lines raw).
Proof.
  unfold candidate_lines, nonblank_lines.
  set (text := remove_char CR (strip_fences (strip raw))).
  assert (H0 : Forall (Forall (fun x => x <> LF /\ x <> CR)) (split [LF] text)).
  { assert (Ha := split_char_pieces LF text).
    assert (Hb := @split_from_Forall (fun x => x <> CR) [LF] 0 text
                    (remove_char_Forall CR _)).
    fold (split [LF] text) in Hb. rewrite Forall_forall in *.
    intros piece Hp. specialize (Ha _ Hp). specialize (Hb _ Hp).
    rewrite Forall_forall in *. intros x Hx. split; [now apply Ha|now apply Hb]. }
  assert (H1 : Forall (Forall (fun x => x <> LF /\ x <> CR))
                      (filter nonblank (split [LF] text))).
  { rewrite Forall_forall in *. intros piece Hp. apply H0.
    apply filter_In in Hp. tauto. }
  unfold resplit. destruct (filter nonblank (split [LF] text)) as [|line [|l2 r]];
    try assumption.
  destruct (_ || _ || _); [|assumption].
  inversion H1 as [|? ? Hline _]; subst. unfold split_pieces.
  assert (H2 := @split_from_Forall _ (choose_sep line) 0 line Hline).
  rewrite Forall_forall in *. intros piece Hp.
  apply filter_In in Hp. destruct Hp as [Hp _]. apply in_map_iff in Hp.
  destruct Hp as (q & <- & Hq). apply strip_Forall. now apply H2.
Qed.

Section ParserShape.

Variable lower : str -> str.
Variable casefold : str -> str.

Local Abbreviation parse := (_parse_artists lower casefold).

Lemma parse_In_clean (raw : str) (n : Z) (name : str) :
  In name (parse (Some raw) n) ->
  exists line, In line (candidate_lines raw) /\ name = clean_item line.
Proof.
  destruct (_parse_artists_prefix lower casefold raw n) as (k & ->).
  intros Hin.
  assert (Hin' : In name (collect lower casefold n (candidate_lines raw) [] [])).
  { rewrite <- (firstn_skipn k). apply in_or_app. now left. }
  destruct (collect_extends lower casefold n (candidate_lines raw) [] [])
    as (added & E & Hs).
  rewrite E in Hin'. simpl in Hin'.
  apply (@subsequence_In _ _ _ name Hs) in Hin'. apply in_map_iff in Hin'.
  destruct Hin' as (line & <- & Hline). now exists line.
Qed.

(** X6. No name the parser returns holds a newline or a carriage return:
    a name is a piece of one line of the answer. *)
Theorem parse_names_one_line (raw : option str) (n : Z) :
  Forall (Forall (fun x => x <> LF /\ x <> CR)) (parse raw n).
Proof.
  destruct raw as [raw|]; [|constructor].
  apply Forall_forall. intros name Hname.
  destruct (parse_In_clean _ _ _ Hname) as (line & Hline & ->).
  apply clean_item_Forall.
  assert (H := candidate_lines_one_line raw).
  rewrite Forall_forall in H. now apply H.
Qed.

(** X7. The plain output of the command line is the names it printed,
    each followed by a newline: split at the newlines it gives the names
    back, one per line, and an empty piece after the last newline. *)
Theorem plain_output_lines (raw : option str) (n : Z) :
  parse raw n <> [] ->
  split [LF] (plain_output (parse raw n)) = parse raw n ++ [[]].
Proof.
  intros Hne. unfold plain_output.
  rewrite <- join_snoc_empty by assumption.
  apply split_join; [now destruct (parse raw n)|].
  apply Forall_app. split; [|repeat constructor].
  destruct raw as [raw|]; [|constructor].
  apply Forall_forall. intros name Hname.
  destruct (parse_In_clean _ _ _ Hname) as (line & Hline & ->).
  apply clean_item_Forall.
  assert (H := candidate_lines_one_line raw).
  rewrite Forall_forall in H. specialize (H _ Hline).
  rewrite Forall_forall in *. intros x Hx. now apply H.
Qed.

(** X8. An answer without content, empty or made of white space only
    gives no name. *)
Theorem parse_blank_answer (raw : str) (n : Z) :
  forallb isspace raw = true ->
  parse None n = [] /\ parse (Some raw) n = [].
Proof.
  intros H. split; [reflexivity|]. apply strip_nil in H.
  unfold _parse_artists. destruct raw as [|c raw]; [reflexivity|].
  unfold candidate_lines. rewrite H. cbn [collect].
  change (collect lower casefold n (resplit (nonblank_lines (strip_fences []))) [] [])
    with (@nil str).
  destruct (_ >? n)%Z; [|reflexivity].
  unfold slice_to. destruct (0 <=? n)%Z; apply firstn_nil.
Qed.

End ParserShape.

(* ================================================================== *)
(** * Well-formed answers are returned as they are *)
(* ================================================================== *)

Section TidyAnswers.

Variable lower : str -> str.
Variable casefold : str -> str.

Local Abbreviation parse := (_parse_artists lower casefold).
Local Abbreviation tidy := (tidy_name lower).

Lemma tidy_name_spec (name : str) :
  tidy name = true ->
  clean_item name = name /\ has_letter name = true /\
  is_preamble lower name = false /\
  Forall (fun x => x <> LF /\ x <> CR /\ x <> backtick) name.
Proof.
  unfold tidy_name. rewrite !andb_true_iff.
  intros [[[Hc Hl] Hp] Hf]. apply str_eqb_eq in Hc.
  apply negb_true_iff in Hp. repeat split; trivial.
  apply Forall_forall. intros x Hx. rewrite forallb_forall in Hf.
  specialize (Hf _ Hx). unfold plain_char in Hf.
  apply negb_true_iff in Hf. rewrite !orb_false_iff in Hf.
  destruct Hf as [[H1 H2] H3].
  repeat split; now apply N.eqb_neq.
Qed.

Lemma tidy_name_stripped (name : str) :
  tidy name = true -> strip name = name /\ name <> [].
Proof.
  intros H. destruct (tidy_name_spec _ H) as (Hc & Hl & _). split.
  - rewrite <- Hc at 1. unfold clean_item. rewrite strip_idem. exact Hc.
  - intros ->. discriminate.
Qed.

(** Tidy names with distinct keys all go through the loop, in order, as
    long as the target is not exceeded. *)
Lemma collect_tidy (n : Z) (names seen cleaned : list str) :
  forallb tidy names = true ->
  NoDup (map casefold names) ->
  (forall name, In name names -> ~ In (casefold name) seen) ->
  (Z.of_nat (length cleaned + length names) <= n)%Z ->
  collect lower casefold n names seen cleaned = cleaned ++ names.
Proof.
  revert seen cleaned. induction names as [|name rest IH];
    intros seen cleaned Ht Hnd Hseen Hlen; simpl.
  - now rewrite app_nil_r.
  - simpl in Ht. apply andb_true_iff in Ht. destruct Ht as [Hname Hrest].
    destruct (tidy_name_spec _ Hname) as (Hc & Hl & Hp & _).
    rewrite Hc, Hp, Hl. simpl negb. cbv iota.
    assert (Hfresh : existsb (str_eqb (casefold name)) seen = false).
    { destruct (existsb _ seen) eqn:E; [|reflexivity].
      apply existsb_str_eqb in E. exfalso.
      apply (Hseen name); [now left|assumption]. }
    rewrite Hfresh. simpl in Hnd, Hlen. inversion Hnd as [|? ? Hnot Hnd']; subst.
    destruct (Z.geb_spec (Z.of_nat (length (cleaned ++ [name]))) n) as [Hge|Hlt].
    + rewrite length_app in Hge. simpl in Hge.
      destruct rest; [reflexivity|simpl in Hlen; lia].
    + rewrite IH; trivial.
      * now rewrite <- app_assoc.
      * intros name' Hin [E|Hin'].
        -- apply Hnot. rewrite E. now apply in_map.
        -- apply (Hseen name'); [now right|assumption].
      * rewrite length_app. simpl. lia.
Qed.

(** What the steps before the loop do to tidy names joined by newlines. *)
Lemma candidate_lines_tidy (names : list str) :
  names <> [] ->
  forallb tidy names = true ->
  (length names = 1%nat -> forallb no_separator names = true) ->
  join [LF] names <> [] /\ candidate_lines (join [LF] names) = names.
Proof.
  intros Hne Ht Hsep.
  assert (Hall : forall name, In name names ->
            strip name = name /\ name <> [] /\
            Forall (fun x => x <> LF /\ x <> CR /\ x <> backtick) name).
  { intros name Hin. rewrite forallb_forall in Ht.
    destruct (tidy_name_stripped _ (Ht _ Hin)) as [Hs Hn].
    destruct (tidy_name_spec _ (Ht _ Hin)) as (_ & _ & _ & Hf). tauto. }
  set (text := join [LF] names).
  assert (Hplain : Forall (fun x => x <> CR /\ x <> backtick) text).
  { apply join_Forall.
    - repeat constructor; discriminate.
    - apply Forall_forall. intros name Hin.
      destruct (Hall _ Hin) as (_ & _ & Hf).
      rewrite Forall_forall in *. intros x Hx. specialize (Hf _ Hx). tauto. }
  assert (Hhead : exists c r, text = c :: r /\ isspace c = false).
  { destruct names as [|first rest]; [congruence|].
    destruct (Hall first (or_introl eq_refl)) as (Hs & Hn & _).
    destruct (stripped_head Hs Hn) as (c & r & -> & Hc).
    destruct (join_head [LF] c r rest) as [tail E].
    exists c, tail. now split. }
  assert (Hlast : exists c r, text = r ++ [c] /\ isspace c = false).
  { destruct (exists_last Hne) as (init & z & E).
    destruct (Hall z) as (Hs & Hn & _).
    { rewrite E. apply in_or_app. right. now left. }
    destruct (stripped_last Hs Hn) as (c & r & Ez & Hc).
    destruct (join_last [LF] init z) as [front Ef].
    exists c, (front ++ r). split; [|assumption].
    unfold text. rewrite E, Ef, Ez, <- app_assoc. reflexivity. }
  destruct Hhead as (c & r & Etext & Hc). split; [now rewrite Etext|].
  assert (Hstrip : strip text = text).
  { unfold strip. rewrite Etext, (@lstrip_fixed c r Hc), <- Etext.
    destruct Hlast as (d & r' & -> & Hd). now apply rstrip_fixed. }
  unfold candidate_lines, nonblank_lines. rewrite Hstrip.
  unfold strip_fences. rewrite strip_fences_from_plain.
  2:{ rewrite Forall_forall in *. intros x Hx. now apply Hplain. }
  rewrite remove_char_absent.
  2:{ rewrite Forall_forall in *. intros x Hx. now apply Hplain. }
  unfold text. rewrite split_join; trivial.
  2:{ apply Forall_forall. intros name Hin. destruct (Hall _ Hin) as (_ & _ & Hf).
      rewrite Forall_forall in *. intros x Hx. now apply Hf. }
  assert (Hfilter : filter nonblank names = names).
  { clear -Hall. induction names as [|name rest IH]; [reflexivity|]. simpl.
    destruct (Hall name (or_introl eq_refl)) as (Hs & Hn & _).
    unfold nonblank. rewrite Hs. destruct name; [congruence|].
    f_equal. apply IH. intros n' Hin. apply Hall. now right. }
  rewrite Hfilter. unfold resplit.
  destruct names as [|line [|l2 rest]]; try reflexivity.
  specialize (Hsep eq_refl). simpl in Hsep. rewrite andb_true_r in Hsep.
  unfold no_separator in Hsep. apply negb_true_iff in Hsep. now rewrite Hsep.
Qed.

(** X9. An answer made of tidy names, one per line, with distinct
    case-folded texts and no more of them than the target, is returned as
    it is (a single name must hold no separator). *)
Theorem parse_tidy_answer (names : list str) (n : Z) :
  names <> [] ->
  forallb tidy names = true ->
  NoDup (map casefold names) ->
  (length names = 1%nat -> forallb no_separator names = true) ->
  (Z.of_nat (length names) <= n)%Z ->
  parse (Some (join [LF] names)) n = names.
Proof.
  intros Hne Ht Hnd Hsep Hlen.
  destruct (candidate_lines_tidy Hne Ht Hsep) as [Htext Hlines].
  unfold _parse_artists. destruct (join [LF] names) as [|c r] eqn:E;
    [congruence|].
  rewrite Hlines, collect_tidy; trivial; [|intros name _ []].
  simpl. destruct (Z.gtb_spec (Z.of_nat (length names)) n); [lia|reflexivity].
Qed.

(** X10. When the first answer of the backend is such a list of exactly
    [count] tidy names, [get_artists] returns these names after that one
    request, without any sleep. *)
Theorem get_artists_tidy_first_answer (sleep_accepts : Q -> bool)
        (cfg : GroqArtistConfig) (backend : Z -> Response) (mood : str)
        (language : option str)
        (names : list str) (more : list (option str)) :
  strip mood <> [] ->
  names <> [] ->
  forallb tidy names = true ->
  NoDup (map casefold names) ->
  (length names = 1%nat -> forallb no_separator names = true) ->
  backend 1%Z = Completion (Some (join [LF] names) :: more) ->
  get_artists lower casefold sleep_accepts cfg backend mood language
              (Some (Z.of_nat (length names)))
  = (Returned names, [Request 1]).
Proof.
  intros Hmood Hne Ht Hnd Hsep Hback. unfold get_artists.
  destruct (strip mood) as [|c m]; [congruence|]. cbv zeta.
  assert (Htarget : target_count_of cfg (Some (Z.of_nat (length names)))
                    = Z.of_nat (length names)).
  { unfold target_count_of. destruct names; [congruence|].
    destruct (Z.eqb_spec (Z.of_nat (length (s :: names))) 0); [|reflexivity].
    simpl in *. lia. }
  rewrite Htarget.
  destruct (Z.to_nat (attempts_of cfg)) as [|todo] eqn:E;
    [unfold attempts_of in E; lia|].
  cbn [attempt_loop]. rewrite Hback. cbn [raw_of].
  destruct (candidate_lines_tidy Hne Ht Hsep) as [Htext Hlines].
  unfold _parse_artists. destruct (join [LF] names) as [|c' r] eqn:Ejoin;
    [congruence|].
  rewrite Hlines, collect_tidy; trivial; [|intros name _ []|simpl; lia].
  simpl app. rewrite Z.gtb_ltb, Z.ltb_irrefl, Z.eqb_refl. reflexivity.
Qed.

End TidyAnswers.

(* ================================================================== *)
(** * Further properties of the retry loop *)
(* ================================================================== *)

Section ServiceMore.

Variable lower : str -> str.
Variable casefold : str -> str.
Variable sleep_accepts : Q -> bool.
Variable cfg : GroqArtistConfig.
Variable backend : Z -> Response.

Local Abbreviation loop := (attempt_loop lower casefold sleep_accepts cfg backend).
Local Abbreviation run := (get_artists lower casefold sleep_accepts cfg backend).
Local Abbreviation schedule :=
  (backoff_schedule (backoff_initial cfg) (backoff_max cfg)).

Lemma schedule_step (n : nat) (attempt : Z) (d : Q) :
  n <> O ->
  backoff_delay cfg attempt = Some d ->
  schedule (S n) attempt =
  Request attempt :: Sleep d :: schedule n (attempt + 1).
Proof.
  intros Hn Hd. apply backoff_delay_Some in Hd. subst d.
  destruct n; [congruence|reflexivity].
Qed.

(** Whatever the backend answers, the effects of the loop are requests
    with consecutive numbers, separated by the delays of the schedule. *)
Lemma loop_trace_shape (target : Z) (todo : nat) (attempt : Z) :
  (attempt + Z.of_nat todo = attempts_of cfg + 1)%Z ->
  snd (loop target todo attempt) =
  schedule (requests (snd (loop target todo attempt))) attempt.
Proof.
  revert attempt. induction todo as [|todo IH]; intros attempt Hlen;
    [reflexivity|].
  cbn [attempt_loop]. unfold on_exception.
  assert (Hsleep : forall d, (attempt < attempts_of cfg)%Z ->
    backoff_delay cfg attempt = Some d ->
    snd (emit (Request attempt)
           (emit (Sleep d) (loop target todo (attempt + 1)))) =
    schedule (requests (snd (emit (Request attempt)
           (emit (Sleep d) (loop target todo (attempt + 1)))))) attempt).
  { intros d Hlt Hd. unfold emit. cbn [fst snd requests].
    rewrite (@schedule_step _ attempt d); trivial.
    - f_equal. f_equal. apply IH. lia.
    - destruct (loop_requests lower casefold sleep_accepts cfg backend target
                              todo (attempt + 1)) as [_ Hpos].
      assert (Htodo : todo <> O) by lia. specialize (Hpos Htodo). lia. }
  assert (Hstop : forall o,
    snd (emit (Request attempt) (o, [])) =
    schedule (requests (snd (emit (Request attempt) (o, [])))) attempt)
    by reflexivity.
  destruct (backend attempt) as [|choices].
  - destruct (Z.ltb_spec attempt (attempts_of cfg)); [|apply Hstop].
    destruct (backoff_delay cfg attempt) as [d|] eqn:Hd; [|apply Hstop].
    destruct (sleep_accepts d); [now apply Hsleep|apply Hstop].
  - destruct (_ =? target)%Z; [apply Hstop|].
    destruct (Z.ltb_spec attempt (attempts_of cfg)).
    + destruct (backoff_delay cfg attempt) as [d|] eqn:Hd; [|apply Hstop].
      destruct (sleep_accepts d); [now apply Hsleep|apply Hstop].
    + assert (todo = O) by lia. subst todo. apply Hstop.
Qed.

(** X11. Whatever the backend answers, the effects of a call are requests
    numbered from 1 without gap, each but the last followed by one sleep
    of [min(backoff_initial * 2^(attempt-1), backoff_max)]; no sleep
    follows the last request. *)
Theorem get_artists_trace_shape (mood : str) (language : option str)
        (count : option Z) :
  snd (run mood language count) =
  schedule (requests (snd (run mood language count))) 1.
Proof.
  unfold get_artists. destruct (strip mood); [reflexivity|]. cbv zeta.
  apply loop_trace_shape. unfold attempts_of. lia.
Qed.

(** X12. With at most 1025 retries, so that every power of two of the
    schedule has a float, and delays
    [min(backoff_initial * 2^(attempt-1), backoff_max)] that [time.sleep]
    accepts, the call returns a list whatever the backend does, its
    failures included: no exception escapes. *)
Theorem get_artists_always_returns (mood : str) (language : option str)
        (count : option Z) :
  (retries cfg <= 1025)%Z ->
  (forall k, (1 <= k < retries cfg)%Z ->
     sleep_accepts (Qmin (backoff_initial cfg * inject_Z (2 ^ (k - 1)))
                         (backoff_max cfg)) = true) ->
  exists artists, fst (run mood language count) = Returned artists.
Proof.
  intros Hr Hs.
  assert (H : fst (run mood language count) <> Propagated).
  { unfold get_artists. destruct (strip mood); [discriminate|]. cbv zeta.
    apply loop_returns; [|lia]. now apply delays_usable_of. }
  destruct (fst (run mood language count)) as [artists|];
    [now exists artists|congruence].
Qed.

(** X13. For the attempts 1 to 1024, those whose power of two has a
    float, the delay is computed and never exceeds [backoff_max]; with a
    non-negative [backoff_initial] it does not decrease from an attempt to
    a later one. From attempt 1025 on no delay is computed: the
    conversion of the power of two raises. *)
Theorem backoff_delay_capped_monotone (attempt later : Z) :
  (1 <= attempt <= later)%Z ->
  ((later <= 1024)%Z ->
   exists d d',
     backoff_delay cfg attempt = Some d /\
     backoff_delay cfg later = Some d' /\
     d <= backoff_max cfg /\ d' <= backoff_max cfg /\
     (0 <= backoff_initial cfg -> d <= d')) /\
  ((1024 < later)%Z -> backoff_delay cfg later = None).
Proof.
  intros Hle. split.
  - intros Hlater. do 2 eexists.
    rewrite !backoff_delay_computed by lia.
    split; [reflexivity|]. split; [reflexivity|].
    split; [apply Q.le_min_r|]. split; [apply Q.le_min_r|].
    intros H0. apply Q.min_le_compat_r.
    rewrite (Qmult_comm _ (inject_Z (2 ^ (attempt - 1)))),
            (Qmult_comm _ (inject_Z (2 ^ (later - 1)))).
    apply Qmult_le_compat_r; [|assumption].
    rewrite <- Zle_Qle. apply Z.pow_le_mono_r; lia.
  - intros Hlater. unfold backoff_delay, float_max_exp.
    destruct (Z.leb_spec (later - 1) 1023); [lia|reflexivity].
Qed.

End ServiceMore.

(* ================================================================== *)
(** * Properties of the entry point and of the route *)
(* ================================================================== *)

Section EntryFacts.

Variable getenv : str -> option str.
Variable to_int : str -> option Z.
Variable to_float : str -> option Q.
Variable lower : str -> str.
Variable casefold : str -> str.
Variable sleep_accepts : Q -> bool.
Variable backend : Z -> Response.

Local Abbreviation from_groq :=
  (get_artists_from_groq getenv to_int to_float lower casefold sleep_accepts
                         backend).

(** A list that comes back from the entry point is empty or has the ten
    names it asks for. *)
Lemma from_groq_empty_or_ten (mood : str) (language : option str)
      (artists : list str) :
  fst (from_groq mood language) = Returned artists ->
  artists = [] \/ length artists = 10%nat.
Proof.
  unfold get_artists_from_groq, _load_config.
  destruct (strip (os_getenv getenv (lit "GROQ_API_KEY") []));
    [intros [= <-]; now left|].
  unfold get_artists. destruct (strip mood); [intros [= <-]; now left|].
  cbv zeta. intros H.
  destruct (loop_returns_exact_or_empty _ _ _ _ _ _ _ _ H) as [E|E];
    [now left|right].
  unfold target_count_of in E. simpl in E. lia.
Qed.

(** X14. Without a key in the environment [get_artists_from_groq] returns
    the empty list and sends no request; and whatever the environment and
    the backend, a list it returns is empty or has exactly ten names. *)
Theorem get_artists_from_groq_result (mood : str) (language : option str) :
  (strip (os_getenv getenv (lit "GROQ_API_KEY") []) = [] ->
   from_groq mood language = (Returned [], [])) /\
  (forall artists,
      fst (from_groq mood language) = Returned artists ->
      artists = [] \/ length artists = 10%nat).
Proof.
  split.
  - unfold get_artists_from_groq, _load_config. intros ->. reflexivity.
  - intros artists. apply from_groq_empty_or_ten.
Qed.

End EntryFacts.

Section MoodFacts.

Lemma occurrences_filter (f : str -> bool) (x : str) (l : list str) :
  f x = true ->
  occurrences str_eqb x (filter f l) = occurrences str_eqb x l.
Proof.
  intros Hx. unfold occurrences. induction l as [|y l IH]; [reflexivity|].
  simpl. destruct (f y) eqn:Hy; simpl.
  - destruct (str_eqb x y); simpl; now rewrite IH.
  - destruct (str_eqb x y) eqn:E; [|exact IH].
    apply str_eqb_eq in E. congruence.
Qed.

(** X15. A label other than neutral that occurs more often than every
    other label other than neutral is the mood returned, wherever it
    stands in the series. *)
Theorem final_mood_unique_maximum (series : list str) (m : str) :
  m <> neutral ->
  In m series ->
  (forall x, In x series -> x <> neutral -> x <> m ->
             (occurrences str_eqb x series < occurrences str_eqb m series)%nat) ->
  final_mood series = Some m.
Proof.
  intros Hm Hin Hmax.
  set (f := fun mood : str => negb (str_eqb mood neutral)).
  assert (Hf : forall x, f x = true <-> x <> neutral).
  { intros x. unfold f. rewrite negb_true_iff. apply str_eqb_neq. }
  assert (Hme : In m (filter f series)).
  { apply filter_In. split; [assumption|now apply Hf]. }
  unfold final_mood. destruct series as [|s series]; [destruct Hin|].
  fold f. destruct (filter f (s :: series)) as [|e es] eqn:E; [destruct Hme|].
  destruct (@most_common_1_spec _ _ str_eqb_eq (e :: es)) as (m' & -> & Hfreq);
    [discriminate|].
  f_equal. destruct Hfreq as [Hin' Hle].
  destruct (list_eq_dec N.eq_dec m' m) as [|Hne]; [assumption|exfalso].
  destruct (Hle m Hme) as [Hle' _].
  rewrite <- E in Hin', Hle'.
  apply filter_In in Hin'. destruct Hin' as [Hs Hn]. apply Hf in Hn.
  rewrite !occurrences_filter in Hle' by now apply Hf.
  specialize (Hmax m' Hs Hn Hne). lia.
Qed.

End MoodFacts.

Section RouteFacts.

Import App.

Variable lower : str -> str.
Variable casefold : str -> str.
Variable capitalize : str -> str.
Variable getenv : str -> option str.
Variable to_int : str -> option Z.
Variable to_float : str -> option Q.
Variable sleep_accepts : Q -> bool.
Variable backend : Z -> Response.
Variable get_mood_from_webcam : Try (option str).
Variable create_playlist_for_one_artist : str -> str -> Try (option str * list str).
Variable create_playlist_from_artists :
  list str -> str -> str -> Try (option str * list str).

Local Abbreviation route :=
  (generate_playlist lower casefold capitalize getenv to_int to_float
     sleep_accepts backend get_mood_from_webcam create_playlist_for_one_artist
     create_playlist_from_artists).

Lemma truthy_Some (s : option str) (v : str) :
  truthy s = Some v -> s = Some v /\ v <> [].
Proof.
  destruct s as [[|c r]|]; simpl; try discriminate.
  intros [= <-]. split; [reflexivity|discriminate].
Qed.

(** X16. The route reports a success only when a mood was detected and a
    playlist builder returned a URL that is not empty, and the reply
    carries that URL and the songs of the builder; the playlist of a mood
    is built from exactly ten recommended artists. *)
Theorem generate_playlist_success (language artist : option str)
        (url shown : str) (songs : list str) :
  route language artist = Success url shown songs ->
  url <> [] /\
  exists mood,
    get_mood_from_webcam = Ok (Some mood) /\ mood <> [] /\
    ((exists name,
         artist = Some name /\ name <> [] /\
         create_playlist_for_one_artist name (name ++ lit "'s Top Tracks")
           = Ok (Some url, songs) /\
         shown = name ++ lit "'s Top Tracks") \/
     (truthy artist = None /\
      exists artists,
        length artists = 10%nat /\
        create_playlist_from_artists artists mood
                                     (capitalize mood ++ lit " Mood Playlist")
          = Ok (Some url, songs) /\
        shown = capitalize mood)).
Proof.
  unfold generate_playlist.
  destruct get_mood_from_webcam as [mood|]; [|discriminate].
  destruct (truthy mood) as [m|] eqn:Em; [|discriminate].
  apply truthy_Some in Em. destruct Em as [-> Hm].
  destruct (truthy artist) as [name|] eqn:Ea.
  - apply truthy_Some in Ea. destruct Ea as [-> Hname].
    unfold artist_playlist.
    destruct (create_playlist_for_one_artist _ _) as [[purl psongs]|] eqn:Ec;
      [|discriminate].
    destruct (truthy purl) as [u|] eqn:Eu; [|discriminate].
    apply truthy_Some in Eu. destruct Eu as [-> Hu].
    intros [= <- <- <-]. split; [assumption|].
    exists m. repeat split; trivial. left. exists name. now repeat split.
  - unfold mood_playlist.
    destruct (get_artists_from_groq _ _ _ _ _ _ _ _ _) as [outcome trace] eqn:Eg.
    destruct outcome as [[|a artists]|]; try discriminate.
    destruct (create_playlist_from_artists _ _ _) as [[purl psongs]|] eqn:Ec;
      [|discriminate].
    destruct (truthy purl) as [u|] eqn:Eu; [|discriminate].
    apply truthy_Some in Eu. destruct Eu as [-> Hu].
    intros [= <- <- <-]. split; [assumption|].
    exists m. repeat split; trivial. right. split; [reflexivity|].
    exists (a :: artists). repeat split; trivial.
    destruct (@from_groq_empty_or_ten getenv to_int to_float lower casefold
                sleep_accepts backend m language (a :: artists)) as [?|?];
      [now rewrite Eg|discriminate|assumption].
Qed.

End RouteFacts.

(* ================================================================== *)
(** * Fenced answers *)
(* ================================================================== *)

Lemma startswith_fence_head (c : char) (s : str) :
  c <> backtick -> startswith fence (c :: s) = false.
Proof.
  intros H. unfold fence. cbn [startswith].
  assert (E : (backtick =? c)%N = false) by (apply N.eqb_neq; congruence).
  now rewrite E.
Qed.

Lemma span_len_app (p : char -> bool) (l : str) (x : char) (t : str) :
  forallb p l = true -> p x = false ->
  span_len p (l ++ x :: t) = length l.
Proof.
  intros Hl Hx. induction l as [|c l IH]; simpl.
  - now rewrite Hx.
  - simpl in Hl. apply andb_true_iff in Hl. destruct Hl as [-> Hl].
    now rewrite IH.
Qed.

Lemma skipn_length_app (A : Type) (l t : list A) : skipn (length l) (l ++ t) = t.
Proof. induction l; simpl; trivial. Qed.

(** Inside a body that ends with a character other than white space, and
    holds no backtick, no closing fence is found. *)
Lemma closing_fence_not_in_body (b : str) (z : char) (t : str) :
  Forall (fun x => x <> backtick) (b ++ [z]) -> isspace z = false ->
  close_fence_len (b ++ z :: t) = None.
Proof.
  intros H Hz. unfold close_fence_len.
  assert (E : startswith fence
                (skipn (span_len isspace (b ++ z :: t)) (b ++ z :: t)) = false).
  { induction b as [|c b IH]; simpl app in *.
    - cbn [span_len]. rewrite Hz. cbn [skipn].
      apply startswith_fence_head. now inversion H.
    - inversion H as [|? ? Hc Hb]; subst. cbn [span_len].
      destruct (isspace c).
      + cbn [skipn]. now apply IH.
      + cbn [skipn]. now apply startswith_fence_head. }
  now rewrite E.
Qed.

Lemma scan_body (b : str) (z : char) (t : str) (bol : bool) :
  Forall (fun x => x <> backtick) (b ++ [z]) -> isspace z = false ->
  exists bol',
    strip_fences_from bol 0 (b ++ z :: t) = b ++ z :: strip_fences_from bol' 0 t.
Proof.
  intros H Hz. revert bol. induction b as [|c b IH]; intros bol; simpl app in *.
  - exists (z =? LF)%N. cbn [strip_fences_from].
    assert (Hm : fence_match bol (z :: t) = None).
    { unfold fence_match, open_fence_len.
      rewrite startswith_fence_head by now inversion H.
      assert (Hcl := @closing_fence_not_in_body [] z t H Hz).
      simpl app in Hcl. rewrite Hcl. now destruct bol. }
    now rewrite Hm.
  - inversion H as [|? ? Hc Hb]; subst.
    destruct (IH Hb (c =? LF)%N) as [bol' E]. exists bol'.
    cbn [strip_fences_from].
    assert (Hm : fence_match bol (c :: b ++ z :: t) = None).
    { unfold fence_match, open_fence_len.
      rewrite startswith_fence_head by assumption.
      assert (Hcl := @closing_fence_not_in_body (c :: b) z t H Hz).
      simpl app in Hcl. rewrite Hcl. now destruct bol. }
    rewrite Hm, E. reflexivity.
Qed.

Lemma skip_all (pre rest : str) (bol : bool) :
  exists bol',
    strip_fences_from bol (length pre) (pre ++ rest) = strip_fences_from bol' 0 rest.
Proof.
  revert bol. induction pre as [|c pre IH]; intros bol.
  - now exists bol.
  - destruct (IH (c =? LF)%N) as [bol' E]. exists bol'. simpl. exact E.
Qed.

Lemma closing_fence_removed (bol : bool) :
  strip_fences_from bol 0 (LF :: fence) = [].
Proof. destruct bol; reflexivity. Qed.

(** The fenced text: an opening fence with a language tag, the body on
    the next lines, and a closing fence on a line of its own. *)
Lemma strip_fences_fenced (lang body : str) :
  forallb is_alnum lang = true ->
  body <> [] -> strip body = body ->
  Forall (fun x => x <> backtick) body ->
  strip_fences (fence ++ lang ++ [LF] ++ body ++ [LF] ++ fence) = body.
Proof.
  intros Hlang Hne Hs Hb.
  destruct (stripped_head Hs Hne) as (c & r & Ehead & Hc).
  destruct (stripped_last Hs Hne) as (z & b & Elast & Hz).
  unfold strip_fences.
  assert (Hm : fence_match true (fence ++ lang ++ [LF] ++ body ++ [LF] ++ fence)
               = Some (3 + length lang + 1)%nat).
  { unfold fence_match, open_fence_len.
    change (startswith fence (fence ++ lang ++ [LF] ++ body ++ [LF] ++ fence))
      with true. cbv iota.
    change (skipn 3 (fence ++ lang ++ [LF] ++ body ++ [LF] ++ fence))
      with (lang ++ LF :: body ++ [LF] ++ fence).
    rewrite span_len_app by (trivial; reflexivity).
    rewrite skipn_length_app, Ehead. cbn [span_len app].
    change (isspace LF) with true. cbv iota. now rewrite Hc. }
  assert (Etext : fence ++ lang ++ [LF] ++ body ++ [LF] ++ fence
                  = backtick :: ([backtick; backtick] ++ lang ++ [LF])
                             ++ (body ++ LF :: fence)).
  { simpl. rewrite <- app_assoc. reflexivity. }
  rewrite Etext in Hm |- *.
  cbn [strip_fences_from]. rewrite Hm.
  replace (3 + length lang + 1)%nat
    with (S (length ([backtick; backtick] ++ lang ++ [LF])))
    by (rewrite !length_app; simpl; lia).
  destruct (skip_all ([backtick; backtick] ++ lang ++ [LF])
                     (body ++ LF :: fence) (backtick =? LF)%N) as [bol1 ->].
  rewrite Elast, <- app_assoc. simpl app.
  rewrite Elast in Hb.
  destruct (scan_body b z (LF :: fence) bol1 Hb Hz) as [bol2 ->].
  now rewrite closing_fence_removed.
Qed.

Section FencedAnswers.

Variable lower : str -> str.
Variable casefold : str -> str.

(** X17. An answer wrapped in a fenced block, with or without a language
    tag, is parsed as its body: the fences are removed and the names
    returned are those of the body. *)
Theorem parse_fenced_answer (lang body : str) (n : Z) :
  forallb is_alnum lang = true ->
  body <> [] -> strip body = body ->
  Forall (fun x => x <> backtick) body ->
  strip_fences (fence ++ lang ++ [LF] ++ body ++ [LF] ++ fence) = body /\
  _parse_artists lower casefold
    (Some (fence ++ lang ++ [LF] ++ body ++ [LF] ++ fence)) n
  = _parse_artists lower casefold (Some body) n.
Proof.
  intros Hlang Hne Hs Hb.
  assert (Hf := strip_fences_fenced lang Hlang Hne Hs Hb).
  split; [exact Hf|].
  set (fenced := fence ++ lang ++ [LF] ++ body ++ [LF] ++ fence) in *.
  assert (Hstrip : strip fenced = fenced).
  { assert (Elast : fenced = (fence ++ lang ++ [LF] ++ body ++ [LF]
                                    ++ [backtick; backtick]) ++ [backtick]).
    { unfold fenced. rewrite <- !app_assoc. reflexivity. }
    unfold strip.
    change (lstrip fenced) with fenced.
    rewrite Elast. now apply rstrip_fixed. }
  assert (Hlines : candidate_lines fenced = candidate_lines body).
  { unfold candidate_lines. rewrite Hstrip, Hf, Hs.
    unfold strip_fences. now rewrite strip_fences_from_plain. }
  unfold _parse_artists. rewrite Hlines.
  destruct body as [|c r]; [congruence|]. reflexivity.
Qed.

End FencedAnswers.

(* ================================================================== *)
(** * The schedule of the delays and the number of retries *)
(* ================================================================== *)

Section RetriesFacts.

Variable lower : str -> str.
Variable casefold : str -> str.
Variable sleep_accepts : Q -> bool.
Variable backend : Z -> Response.

(** X18. For the attempts 1 to 1023, so that the power of two of the next
    attempt still has a float, and while the cap is not reached, the delay
    doubles from an attempt to the next. *)
Theorem backoff_delay_doubles (cfg : GroqArtistConfig) (attempt : Z) :
  0 <= backoff_initial cfg ->
  (1 <= attempt <= 1023)%Z ->
  backoff_initial cfg * inject_Z (2 ^ attempt) <= backoff_max cfg ->
  exists d d',
    backoff_delay cfg attempt = Some d /\
    backoff_delay cfg (attempt + 1) = Some d' /\
    d' == 2 * d.
Proof.
  intros H0 Ha Hcap. do 2 eexists.
  rewrite !backoff_delay_computed by lia.
  split; [reflexivity|]. split; [reflexivity|].
  replace (attempt + 1 - 1)%Z with attempt by lia.
  assert (Hpow : (2 ^ attempt = 2 * 2 ^ (attempt - 1))%Z).
  { rewrite <- Z.pow_succ_r by lia. f_equal. lia. }
  assert (Hlow : backoff_initial cfg * inject_Z (2 ^ (attempt - 1))
                 <= backoff_initial cfg * inject_Z (2 ^ attempt)).
  { rewrite (Qmult_comm _ (inject_Z (2 ^ (attempt - 1)))),
            (Qmult_comm _ (inject_Z (2 ^ attempt))).
    apply Qmult_le_compat_r; [|assumption].
    rewrite <- Zle_Qle. apply Z.pow_le_mono_r; lia. }
  rewrite (Q.min_l _ _ Hcap).
  rewrite (Q.min_l _ (backoff_max cfg)) by (eapply Qle_trans; eassumption).
  rewrite Hpow, inject_Z_mult. ring.
Qed.

(** A call that succeeds does not look at the attempts it has left. *)
Lemma loop_success_more_retries (cfg : GroqArtistConfig) (r' : Z) (target : Z)
      (todo todo' : nat) (attempt : Z) (name : str) (names : list str) :
  (retries cfg <= r')%Z ->
  (attempt + Z.of_nat todo = attempts_of cfg + 1)%Z ->
  (attempt + Z.of_nat todo' = attempts_of (with_retries r' cfg) + 1)%Z ->
  fst (attempt_loop lower casefold sleep_accepts cfg backend target todo attempt)
    = Returned (name :: names) ->
  attempt_loop lower casefold sleep_accepts (with_retries r' cfg) backend target
               todo' attempt
  = attempt_loop lower casefold sleep_accepts cfg backend target todo attempt.
Proof.
  intros Hr. revert todo' attempt.
  induction todo as [|todo IH]; intros todo' attempt Hlen Hlen'; [discriminate|].
  assert (Hatt : (attempts_of cfg <= attempts_of (with_retries r' cfg))%Z)
    by (unfold attempts_of; cbn [retries with_retries]; lia).
  destruct todo' as [|todo']; [lia|].
  cbn [attempt_loop]. unfold on_exception, emit. cbn [fst snd].
  change (backoff_delay (with_retries r' cfg) attempt)
    with (backoff_delay cfg attempt).
  destruct (backend attempt) as [|choices].
  - destruct (Z.ltb_spec attempt (attempts_of cfg)) as [Hlt|Hge]; [|discriminate].
    destruct (Z.ltb_spec attempt (attempts_of (with_retries r' cfg)))
      as [Hlt'|Hge']; [|lia].
    destruct (backoff_delay cfg attempt) as [d|]; [|discriminate].
    destruct (sleep_accepts d); [|discriminate].
    cbn [fst snd]. intros Hret.
    rewrite (IH todo' (attempt + 1)%Z); trivial; lia.
  - destruct (_ =? target)%Z; [reflexivity|].
    destruct (Z.ltb_spec attempt (attempts_of cfg)) as [Hlt|Hge].
    + destruct (Z.ltb_spec attempt (attempts_of (with_retries r' cfg)))
        as [Hlt'|Hge']; [|lia].
      destruct (backoff_delay cfg attempt) as [d|]; [|discriminate].
      destruct (sleep_accepts d); [|discriminate].
      cbn [fst snd]. intros Hret.
      rewrite (IH todo' (attempt + 1)%Z); trivial; lia.
    + assert (Etodo : todo = O) by lia. subst todo. discriminate.
Qed.

(** X19. Raising the number of retries changes nothing to a call that
    returns names: the same names come back after the same requests and
    sleeps. *)
Theorem get_artists_more_retries (cfg : GroqArtistConfig) (r' : Z)
        (mood : str) (language : option str) (count : option Z)
        (name : str) (names : list str) :
  (retries cfg <= r')%Z ->
  fst (get_artists lower casefold sleep_accepts cfg backend mood language count)
    = Returned (name :: names) ->
  get_artists lower casefold sleep_accepts (with_retries r' cfg) backend mood
              language count
  = get_artists lower casefold sleep_accepts cfg backend mood language count.
Proof.
  intros Hr. unfold get_artists. destruct (strip mood); [reflexivity|].
  cbv zeta. change (target_count_of (with_retries r' cfg) count)
    with (target_count_of cfg count).
  apply loop_success_more_retries; trivial; unfold attempts_of;
    cbn [retries with_retries]; lia.
Qed.

End RetriesFacts.

(* ================================================================== *)
(** * Answers on one line *)
(* ================================================================== *)

(** The pieces of a join whose separator starts with a character that the
    parts and the rest of the separator do not hold. *)
Lemma split_join_padded (c : char) (pad pre : str) (parts : list str) :
  Forall (fun x => x <> c) pad -> Forall (fun x => x <> c) pre ->
  Forall (Forall (fun x => x <> c)) parts ->
  split [c] (pre ++ join (c :: pad) parts) =
  match parts with
  | [] => [pre]
  | first :: rest => (pre ++ first) :: map (fun part => pad ++ part) rest
  end.
Proof.
  intros Hpad Hpre H. revert pre Hpre.
  induction H as [|p rest Hp Hrest IH]; intros pre Hpre.
  - simpl. rewrite app_nil_r. now apply split_char_none.
  - destruct rest as [|q rest].
    + simpl. apply split_char_none. apply Forall_app. now split.
    + change (join (c :: pad) (p :: q :: rest))
        with (p ++ (c :: pad) ++ join (c :: pad) (q :: rest)).
      replace (pre ++ p ++ (c :: pad) ++ join (c :: pad) (q :: rest))
        with ((pre ++ p) ++ c :: (pad ++ join (c :: pad) (q :: rest)))
        by (rewrite <- !app_assoc; reflexivity).
      rewrite split_char_app by (apply Forall_app; now split).
      rewrite (IH pad Hpad). reflexivity.
Qed.

Lemma strip_after_space (name : str) :
  strip name = name -> strip (32%N :: name) = name.
Proof. intros H. unfold strip, lstrip in *. simpl. exact H. Qed.

Section OneLineAnswers.

Variable lower : str -> str.
Variable casefold : str -> str.

(** What the steps before the loop do to tidy names on one line, separated
    by a comma and a space. *)
Lemma candidate_lines_comma (names : list str) :
  (2 <= length names)%nat ->
  forallb (tidy_name lower) names = true ->
  forallb free_of_separators names = true ->
  join (lit ", ") names <> [] /\
  candidate_lines (join (lit ", ") names) = names.
Proof.
  intros Hlen Ht Hfree.
  change (lit ", ") with [44%N; 32%N].
  set (line := join [44%N; 32%N] names).
  assert (Hall : forall name, In name names ->
            strip name = name /\ name <> [] /\
            Forall (fun x => x <> LF /\ x <> CR /\ x <> backtick /\
                             x <> 44%N /\ x <> 124%N /\ x <> 8226%N) name).
  { intros name Hin. rewrite forallb_forall in Ht, Hfree.
    destruct (tidy_name_stripped _ _ (Ht _ Hin)) as [Hs Hn].
    destruct (tidy_name_spec _ _ (Ht _ Hin)) as (_ & _ & _ & Hf).
    specialize (Hfree _ Hin). unfold free_of_separators in Hfree.
    repeat split; trivial. rewrite Forall_forall in *. intros x Hx.
    destruct (Hf _ Hx) as (H1 & H2 & H3).
    rewrite forallb_forall in Hfree. specialize (Hfree _ Hx).
    apply negb_true_iff in Hfree. rewrite !orb_false_iff in Hfree.
    destruct Hfree as [[H4 H5] H6].
    repeat split; trivial; now apply N.eqb_neq. }
  assert (Hline : Forall (fun x => x <> LF /\ x <> CR /\ x <> backtick /\
                                   x <> 124%N /\ x <> 8226%N) line).
  { apply join_Forall.
    - repeat constructor; discriminate.
    - apply Forall_forall. intros name Hin. destruct (Hall _ Hin) as (_ & _ & Hf).
      rewrite Forall_forall in *. intros x Hx. specialize (Hf _ Hx). tauto. }
  assert (Hne : names <> []) by (destruct names; simpl in *; [lia|discriminate]).
  assert (Hhead : exists c r, line = c :: r /\ isspace c = false).
  { destruct names as [|first rest]; [congruence|].
    destruct (Hall first (or_introl eq_refl)) as (Hs & Hn & _).
    destruct (stripped_head Hs Hn) as (c & r & -> & Hc).
    destruct (join_head [44%N; 32%N] c r rest) as [tail E].
    exists c, tail. now split. }
  assert (Hlast : exists c r, line = r ++ [c] /\ isspace c = false).
  { destruct (exists_last Hne) as (init & z & E).
    destruct (Hall z) as (Hs & Hn & _).
    { rewrite E. apply in_or_app. right. now left. }
    destruct (stripped_last Hs Hn) as (c & r & Ez & Hc).
    destruct (join_last [44%N; 32%N] init z) as [front Ef].
    exists c, (front ++ r). split; [|assumption].
    unfold line. rewrite E, Ef, Ez, <- app_assoc. reflexivity. }
  destruct Hhead as (c & r & Eline & Hc). split; [now rewrite Eline|].
  assert (Hstrip : strip line = line).
  { unfold strip. rewrite Eline, (@lstrip_fixed c r Hc), <- Eline.
    destruct Hlast as (d & r' & -> & Hd). now apply rstrip_fixed. }
  unfold candidate_lines, nonblank_lines. rewrite Hstrip.
  unfold strip_fences. rewrite strip_fences_from_plain.
  2:{ rewrite Forall_forall in *. intros x Hx. now apply Hline. }
  rewrite remove_char_absent.
  2:{ rewrite Forall_forall in *. intros x Hx. now apply Hline. }
  rewrite split_char_none.
  2:{ rewrite Forall_forall in *. intros x Hx. now apply Hline. }
  cbn [filter]. unfold nonblank at 1. rewrite Hstrip, Eline, <- Eline.
  unfold resplit, choose_sep.
  assert (Hpieces : forall first rest, names = first :: rest ->
            split [44%N] line = first :: map (fun part => [32%N] ++ part) rest).
  { intros first rest E. unfold line.
    rewrite <- (app_nil_l (join _ _)), split_join_padded; trivial.
    - now rewrite E.
    - repeat constructor; discriminate.
    - apply Forall_forall. intros name Hin. destruct (Hall _ Hin) as (_ & _ & Hf).
      rewrite Forall_forall in *. intros x Hx. now apply Hf. }
  assert (Hcomma : contains comma line = true).
  { destruct names as [|p [|q rest]]; simpl in Hlen; try lia.
    unfold line.
    change (join [44%N; 32%N] (p :: q :: rest))
      with (p ++ comma ++ (32%N :: join [44%N; 32%N] (q :: rest))).
    apply contains_after. }
  assert (Hbullet : contains bullet_sep line = false).
  { apply (@contains_absent 8226%N); [right; now left|].
    rewrite Forall_forall in *. intros x Hx. now apply Hline. }
  assert (Hpipe : contains pipe_sep line = false).
  { apply (@contains_absent 124%N); [right; now left|].
    rewrite Forall_forall in *. intros x Hx. now apply Hline. }
  rewrite Hcomma, Hbullet, Hpipe. cbn [orb]. cbv iota.
  unfold split_pieces. change comma with [44%N].
  destruct names as [|first rest] eqn:En; [congruence|].
  rewrite (Hpieces first rest eq_refl). rewrite <- En in Hall.
  assert (Hstripped : map strip (first :: map (fun part => [32%N] ++ part) rest)
                      = first :: rest).
  { simpl. f_equal.
    - apply (Hall first). rewrite En. now left.
    - rewrite map_map. rewrite <- (map_id rest) at 2. apply map_ext_in.
      intros name Hin. apply strip_after_space. apply (Hall name).
      rewrite En. now right. }
  rewrite Hstripped. rewrite <- En.
  clear -Hall. induction names as [|name rest IH]; [reflexivity|]. simpl.
  destruct (Hall name (or_introl eq_refl)) as (_ & Hn & _).
  destruct name; [congruence|]. simpl. f_equal. apply IH.
  intros n' Hin. apply Hall. now right.
Qed.

(** X20. Two or more tidy names on one line, separated by a comma and a
    space and holding no separator character themselves, are returned as
    the same names on a line each would be. *)
Theorem parse_comma_separated_line (names : list str) (n : Z) :
  (2 <= length names)%nat ->
  forallb (tidy_name lower) names = true ->
  forallb free_of_separators names = true ->
  NoDup (map casefold names) ->
  (Z.of_nat (length names) <= n)%Z ->
  _parse_artists lower casefold (Some (join (lit ", ") names)) n = names.
Proof.
  intros Hlen Ht Hfree Hnd Hn.
  destruct (candidate_lines_comma names Hlen Ht Hfree) as [Htext Hlines].
  unfold _parse_artists. destruct (join (lit ", ") names) as [|c r] eqn:E;
    [congruence|].
  rewrite Hlines, collect_tidy; trivial; [|intros name _ []].
  simpl. destruct (Z.gtb_spec (Z.of_nat (length names)) n); [lia|reflexivity].
Qed.

End OneLineAnswers.

(* ================================================================== *)
(** * The further properties at sample inputs *)
(* ================================================================== *)

Import App MoreSamples.

Lemma parse_smaller_target_prefix_witness :
  _parse_artists ascii_lower ascii_lower (Some numbered_text) 1
  = firstn 1 (_parse_artists ascii_lower ascii_lower (Some numbered_text) 3).
Proof.
  apply (@parse_smaller_target_prefix ascii_lower ascii_lower
           (Some numbered_text) 1 3).
  lia.
Defined.

Lemma parse_short_result_complete_witness :
  (Z.of_nat (length (_parse_artists ascii_lower ascii_lower
                       (Some numbered_text) 3)) < 3)%Z /\
  Forall (fun line =>
            is_preamble ascii_lower (clean_item line) = false ->
            has_letter (clean_item line) = true ->
            In (ascii_lower (clean_item line))
               (map ascii_lower
                    (_parse_artists ascii_lower ascii_lower (Some numbered_text) 3)))
         (candidate_lines numbered_text).
Proof.
  split; [vm_compute; reflexivity|].
  apply (@parse_short_result_complete ascii_lower ascii_lower numbered_text 3).
  vm_compute. reflexivity.
Defined.

Lemma two_names_plain : Forall (fun x => x <> backtick) two_names.
Proof. repeat constructor; discriminate. Defined.

Lemma strip_fences_without_backtick_witness :
  strip_fences two_names = two_names /\
  (strip two_names = two_names ->
   candidate_lines two_names = resplit (nonblank_lines two_names)).
Proof.
  apply (@strip_fences_without_backtick two_names). exact two_names_plain.
Defined.

Lemma plain_output_lines_witness :
  split [LF] (plain_output (_parse_artists ascii_lower ascii_lower
                                           (Some numbered_text) 3))
  = _parse_artists ascii_lower ascii_lower (Some numbered_text) 3 ++ [[]].
Proof.
  apply (@plain_output_lines ascii_lower ascii_lower (Some numbered_text) 3).
  vm_compute. discriminate.
Defined.

Lemma parse_blank_answer_witness :
  _parse_artists ascii_lower ascii_lower None 3 = [] /\
  _parse_artists ascii_lower ascii_lower (Some blank_mood) 3 = [].
Proof.
  apply (@parse_blank_answer ascii_lower ascii_lower blank_mood 3).
  reflexivity.
Defined.

Lemma Adele_Drake_distinct : NoDup (map ascii_lower [Adele; Drake]).
Proof.
  constructor; [|constructor; [|constructor]]; vm_compute; intuition discriminate.
Defined.

Lemma parse_tidy_answer_witness :
  _parse_artists ascii_lower ascii_lower (Some (join [LF] [Adele; Drake])) 5
  = [Adele; Drake].
Proof.
  apply (@parse_tidy_answer ascii_lower ascii_lower [Adele; Drake] 5).
  - discriminate.
  - reflexivity.
  - exact Adele_Drake_distinct.
  - discriminate.
  - simpl. lia.
Defined.

Lemma get_artists_tidy_first_answer_witness :
  get_artists ascii_lower ascii_lower clock_sleep (default_config key)
              (always_answers (join [LF] [Adele; Drake])) happy None
              (Some (Z.of_nat (length [Adele; Drake])))
  = (Returned [Adele; Drake], [Request 1]).
Proof.
  apply (@get_artists_tidy_first_answer ascii_lower ascii_lower clock_sleep
           (default_config key) (always_answers (join [LF] [Adele; Drake]))
           happy None [Adele; Drake] []).
  - exact happy_is_valid.
  - discriminate.
  - reflexivity.
  - exact Adele_Drake_distinct.
  - discriminate.
  - reflexivity.
Defined.

Lemma get_artists_always_returns_witness :
  exists artists,
    fst (get_artists ascii_lower ascii_lower clock_sleep (default_config key)
                     always_raises happy None None) = Returned artists.
Proof.
  apply (@get_artists_always_returns ascii_lower ascii_lower clock_sleep
           (default_config key) always_raises happy None None).
  - simpl. lia.
  - intros k _. apply (default_delays_accepted key 3 k).
Defined.

Lemma backoff_delay_capped_monotone_witness :
  (exists d d',
     backoff_delay (default_config key) 1 = Some d /\
     backoff_delay (default_config key) 5 = Some d' /\
     d <= backoff_max (default_config key) /\
     d' <= backoff_max (default_config key) /\
     (0 <= backoff_initial (default_config key) -> d <= d')) /\
  backoff_delay (default_config key) 1025 = None.
Proof.
  split.
  - apply (@backoff_delay_capped_monotone (default_config key) 1 5); lia.
  - apply (@backoff_delay_capped_monotone (default_config key) 1 1025); lia.
Defined.

Lemma final_mood_unique_maximum_witness :
  final_mood [happy; neutral; happy; sad] = Some happy.
Proof.
  apply (@final_mood_unique_maximum [happy; neutral; happy; sad] happy).
  - discriminate.
  - now left.
  - intros x [<-|[<-|[<-|[<-|[]]]]] Hn Hm;
      try (now elim Hn); try (now elim Hm).
    vm_compute. lia.
Defined.

Lemma generate_playlist_success_witness :
  generate_playlist ascii_lower ascii_lower ascii_lower key_only no_int no_float
    clock_sleep (always_answers (join [LF] ten_names)) detects_happy
    builds_for_one builds_from_artists None None
  = Success sample_url happy ten_names /\
  sample_url <> [].
Proof.
  split; [vm_compute; reflexivity|].
  apply (@generate_playlist_success ascii_lower ascii_lower ascii_lower key_only
           no_int no_float clock_sleep (always_answers (join [LF] ten_names))
           detects_happy builds_for_one builds_from_artists None None
           sample_url happy ten_names).
  vm_compute. reflexivity.
Defined.

Lemma parse_fenced_answer_witness :
  strip_fences (fence ++ lit "text" ++ [LF] ++ two_names ++ [LF] ++ fence)
  = two_names /\
  _parse_artists ascii_lower ascii_lower
    (Some (fence ++ lit "text" ++ [LF] ++ two_names ++ [LF] ++ fence)) 2
  = _parse_artists ascii_lower ascii_lower (Some two_names) 2.
Proof.
  apply (@parse_fenced_answer ascii_lower ascii_lower (lit "text") two_names 2).
  - reflexivity.
  - discriminate.
  - reflexivity.
  - exact two_names_plain.
Defined.

Lemma parse_comma_separated_line_witness :
  _parse_artists ascii_lower ascii_lower (Some (lit "Adele, Drake")) 2
  = [Adele; Drake].
Proof.
  apply (@parse_comma_separated_line ascii_lower ascii_lower [Adele; Drake] 2).
  - simpl. lia.
  - reflexivity.
  - reflexivity.
  - exact Adele_Drake_distinct.
  - simpl. lia.
Defined.

Lemma backoff_delay_doubles_witness :
  exists d d',
    backoff_delay (default_config key) 1 = Some d /\
    backoff_delay (default_config key) (1 + 1) = Some d' /\
    d' == 2 * d.
Proof.
  apply (@backoff_delay_doubles (default_config key) 1).
  - discriminate.
  - lia.
  - unfold Qle. simpl. lia.
Defined.

Lemma get_artists_more_retries_witness :
  get_artists ascii_lower ascii_lower clock_sleep
              (with_retries 7 (default_config key))
              (always_answers two_names) happy None (Some 2%Z)
  = get_artists ascii_lower ascii_lower clock_sleep (default_config key)
                (always_answers two_names) happy None (Some 2%Z).
Proof.
  apply (@get_artists_more_retries ascii_lower ascii_lower clock_sleep
           (always_answers two_names) (default_config key) 7 happy None
           (Some 2%Z) Adele [Drake]).
  - simpl. lia.
  - reflexivity.
Defined.
